(** * Frame distribution, worker pool and shutdown of the license-plate reader client

    A shallow embedding of [client/app.py]: the frame segmenter
    ([DistributeFramesAndInfer.write]), the worker pool process
    ([WorkerPool.run], [WorkerPool.stop]), the teardown of
    [DistributeFramesAndInfer.stop] and the control flow of [main].

    Python integers are unbounded, so they are [Z]; [bytes] objects are
    lists of [byte]; a [multiprocessing.Queue] is a list whose head is the
    oldest entry; a raised exception is the [Raise] case of [result]. *)

From Stdlib Require Import ZArith List Lia Bool Sorted.
From Stdlib.Strings Require Import Byte String.
From stdpp Require Import base list numbers.

Open Scope Z_scope.

(** ** Python values and exceptions *)

Definition bytes := list byte.

Inductive exn :=
  | ZeroDivisionError
  | AssertionError
  | OSError (msg : string)
  | JSONDecodeError (msg : string).

Inductive result (A : Type) :=
  | Ok (a : A)
  | Raise (e : exn).
Arguments Ok {A} a.
Arguments Raise {A} e.

#[global] Instance result_ret : MRet result := fun A a => Ok a.
#[global] Instance result_bind : MBind result := fun A B k r =>
  match r with
  | Ok a => k a
  | Raise e => Raise e
  end.

(** [a % b] on Python integers: floor modulo, [ZeroDivisionError] when
    the divisor is zero.  For a non-zero divisor the result has the sign
    of the divisor, as [Z.modulo] has. *)
Definition py_mod (a b : Z) : result Z :=
  if b =? 0 then Raise ZeroDivisionError else Ok (a mod b).

(** [buf.startswith(b"\xff\xd8")] *)
Definition startswith_soi (buf : bytes) : bool :=
  match buf with
  | xff :: xd8 :: _ => true
  | _ => false
  end.

(** ** The frame segmenter *)

(** The dictionary put on the work queue: [{"frame_num": ..., "jpeg": ...}]. *)
Module Task.
Record t := mk { frame_num : Z; jpeg : bytes }.
End Task.

(** The attributes of a [DistributeFramesAndInfer] object that [write]
    reads or updates.  [pick_every_nth_frame] is one of the keys of
    [pool_cfg] that [__init__] copies onto the object with [setattr]. The
    result queue and the pool process belong to the process model below. *)
Record DistributeFramesAndInfer := mkOutput {
  frame_num : Z;
  pick_every_nth_frame : Z;
  in_queue : list Task.t
}.

(** [__init__]: [self.frame_num = 0], an empty [in_queue]. *)
Definition new_output (nth : Z) : DistributeFramesAndInfer :=
  {| frame_num := 0; pick_every_nth_frame := nth; in_queue := [] |}.

(** [self.in_queue.put(item)]: the queue is unbounded, [put] appends. *)
Definition put {A} (q : list A) (item : A) : list A := q ++ [item].

(** [DistributeFramesAndInfer.write].  An exception leaves the object as it
    was: the only operation that can raise is the modulo, which runs before
    any update. *)
Definition write (self : DistributeFramesAndInfer) (buf : bytes)
  : result DistributeFramesAndInfer :=
  if startswith_soi buf then
    r ← py_mod (frame_num self) (pick_every_nth_frame self);
    let q := if r =? 0
             then put (in_queue self)
                      {| Task.frame_num := frame_num self; Task.jpeg := buf |}
             else in_queue self in
    Ok {| frame_num := frame_num self + 1;
          pick_every_nth_frame := pick_every_nth_frame self;
          in_queue := q |}
  else Ok self.

(** The camera calls [write] once per chunk, in order. *)
Fixpoint writes (self : DistributeFramesAndInfer) (chunks : list bytes)
  : result DistributeFramesAndInfer :=
  match chunks with
  | [] => Ok self
  | buf :: rest => self' ← write self buf; writes self' rest
  end.

(** The object as [write] leaves it, whether it returned or raised. *)
Definition after_write (self : DistributeFramesAndInfer) (buf : bytes)
  : DistributeFramesAndInfer :=
  match write self buf with
  | Ok self' => self'
  | Raise _ => self
  end.

(** All frame bytes the object holds: the payloads waiting on the work
    queue.  The object has no other place where frame bytes are kept. *)
Definition held_bytes (self : DistributeFramesAndInfer) : bytes :=
  concat (Task.jpeg <$> in_queue self).

(** The segmenter as section 4.1 of the specification words it: increment
    the counter first, then test the incremented counter and use it as the
    sequence number. *)
Definition write_increment_first (self : DistributeFramesAndInfer) (buf : bytes)
  : result DistributeFramesAndInfer :=
  if startswith_soi buf then
    let counter := frame_num self + 1 in
    r ← py_mod counter (pick_every_nth_frame self);
    let q := if r =? 0
             then put (in_queue self)
                      {| Task.frame_num := counter; Task.jpeg := buf |}
             else in_queue self in
    Ok {| frame_num := counter;
          pick_every_nth_frame := pick_every_nth_frame self;
          in_queue := q |}
  else Ok self.

(** ** Configuration and the control flow of [main] *)

(** The keys of [config.json] that decide the behaviour modelled here:
    [inferencing_pool.workers], [inferencing_pool.pick_every_nth_frame],
    [general.frame_count_threshold] and [general.output_file].  The camera,
    broadcaster and worker sections are passed on unread. *)
Record Config := mkConfig {
  cfg_workers : Z;
  cfg_pick_every_nth_frame : Z;
  cfg_frame_count_threshold : Z;
  cfg_output_file : string
}.

(** What [open('config.json')] and [json.load(file)] find. *)
Inductive ConfigFile :=
  | Unopenable (msg : string)
  | Unparsable (msg : string)
  | Parsed (cfg : Config).

(** Lines 88-90 of [main]: [open], [json.load], [close]. *)
Definition load_config (file : ConfigFile) : result Config :=
  match file with
  | Unopenable msg => Raise (OSError msg)
  | Unparsable msg => Raise (JSONDecodeError msg)
  | Parsed cfg => Ok cfg
  end.

Inductive port := Port0 | Port1.
Inductive queue_id := InQueue | OutQueue.

(** The calls [main] makes on other components, one constructor per call. *)
Inductive Action :=
  | InstallSignalHandlers
  | LogCritical (e : exn)
  | LogInfo (msg : string)
  | NewOutput (workers nth : Z)
  | PoolStart
  | ReassemblerStart
  | FlusherStart (threshold : Z)
  | CameraOpen
  | CameraConfigure
  | StartRecording (p : port)
  | WaitRecording (p : port)
  | StopRecording (p : port)
  | PoolStop
  | PoolJoin
  | CancelJoinThread (q : queue_id)
  | CameraClose
  | ReassemblerStop
  | FlusherStop.

(** [DistributeFramesAndInfer.__init__]: lines 57-62 build the object, the
    queues and the [WorkerPool]; line 63 starts the pool process. *)
Definition output_init (cfg : Config) : list Action :=
  [NewOutput (cfg_workers cfg) (cfg_pick_every_nth_frame cfg); PoolStart].

(** [WorkerPool.stop]: [self.event_stopper.set()]. *)
Definition pool_stop : list Action := [PoolStop].

(** [DistributeFramesAndInfer.stop]: [self.pool.stop()], [self.pool.join()],
    then [cancel_join_thread] on the two queues. *)
Definition output_stop : list Action :=
  pool_stop ++ [PoolJoin; CancelJoinThread InQueue; CancelJoinThread OutQueue].

(** One round of the loop [while not killer.kill_now]. *)
Definition wait_round : list Action :=
  [WaitRecording Port0; WaitRecording Port1; LogInfo "frames qsize, inferenced qsize"].

Fixpoint wait_loop (rounds : nat) : list Action :=
  match rounds with
  | O => []
  | S k => wait_round ++ wait_loop k
  end.

(** The statements of [main] after the loop has seen [killer.kill_now]:
    lines 141-147. *)
Definition teardown : list Action :=
  [LogInfo "gracefully exiting"; StopRecording Port0; StopRecording Port1]
  ++ output_stop
  ++ [CameraClose; ReassemblerStop; FlusherStop].

(** What [main] does between loading the configuration and the waiting
    loop: lines 98-132. *)
Definition startup (cfg : Config) : list Action :=
  [LogInfo "initializing pool"]
  ++ output_init cfg
  ++ [LogInfo "initialized worker pool";
      ReassemblerStart;
      FlusherStart (cfg_frame_count_threshold cfg);
      CameraOpen; CameraConfigure; LogInfo "picamera initialized";
      StartRecording Port0; StartRecording Port1;
      LogInfo "started recording to file and to queue"].

(** [main].  [rounds] is the number of times the waiting loop runs before it
    finds [killer.kill_now] set by the signal handler. *)
Definition main (file : ConfigFile) (rounds : nat) : list Action :=
  InstallSignalHandlers ::
  match load_config file with
  | Raise e => [LogCritical e]
  | Ok cfg => startup cfg ++ wait_loop rounds ++ teardown
  end.

Definition Action_eqb (a b : Action) : bool :=
  match a, b with
  | InstallSignalHandlers, InstallSignalHandlers
  | PoolStart, PoolStart
  | ReassemblerStart, ReassemblerStart
  | CameraOpen, CameraOpen
  | CameraConfigure, CameraConfigure
  | PoolStop, PoolStop
  | PoolJoin, PoolJoin
  | CameraClose, CameraClose
  | ReassemblerStop, ReassemblerStop
  | FlusherStop, FlusherStop => true
  | StartRecording Port0, StartRecording Port0
  | StartRecording Port1, StartRecording Port1
  | WaitRecording Port0, WaitRecording Port0
  | WaitRecording Port1, WaitRecording Port1
  | StopRecording Port0, StopRecording Port0
  | StopRecording Port1, StopRecording Port1 => true
  | CancelJoinThread InQueue, CancelJoinThread InQueue
  | CancelJoinThread OutQueue, CancelJoinThread OutQueue => true
  | FlusherStart s, FlusherStart t => s =? t
  | NewOutput w n, NewOutput w' n' => (w =? w') && (n =? n')
  | _, _ => false
  end.

(** Position of the first occurrence of an action in a trace. *)
Fixpoint index_of (a : Action) (tr : list Action) : option nat :=
  match tr with
  | [] => None
  | b :: rest => if Action_eqb a b then Some O else S <$> index_of a rest
  end.

(** [a] occurs in the trace, and [b] occurs later than the first [a]. *)
Definition precedes (a b : Action) (tr : list Action) : bool :=
  match index_of a tr, index_of b tr with
  | Some i, Some j => (i <? j)%nat
  | _, _ => false
  end.

(** Actions that bring a component to life. *)
Definition starts_component (a : Action) : bool :=
  match a with
  | NewOutput _ _ | PoolStart | ReassemblerStart | FlusherStart _
  | CameraOpen | StartRecording _ => true
  | _ => false
  end.

(** ** The processes and threads around the queues *)

(** Modelled from the spec: the Load Shedder's drain ([Flusher] lives in
    [workers.py], which is not part of this source tree).  Section 4.3: when
    [depth() > threshold] it takes entries off the work queue, oldest first,
    until [depth() <= threshold]. *)
Fixpoint shed {A} (threshold : Z) (q : list A) : list A :=
  match q with
  | [] => []
  | _ :: rest =>
      if threshold <? Z.of_nat (length q) then shed threshold rest else q
  end.

(** The interface [WorkerPool] asks of its [worker] argument: something it
    can construct with the stop event, the two queues and a name, then
    [start()] and [join()].  The body of the worker's [run] is not in this
    source tree, so it is left open: one step of it reads the stop event
    and may replace the contents of both queues, or returns. *)
Inductive run_step (S P : Type) :=
  | Continue (s : S) (inq : list Task.t) (outq : list P)
  | Return.
Arguments Continue {S P} s inq outq.
Arguments Return {S P}.

Class Worker := {
  worker_state : Type;
  prediction : Type;
  choice : Type;
  worker_new : nat -> worker_state;
  worker_run : choice -> worker_state -> bool -> list Task.t -> list prediction
               -> run_step worker_state prediction
}.

(** Modelled from the spec: the worker loop of section 4.2 ([InferenceWorker]
    lives in [workers.py]):
    [loop { task = pull(WorkQueue); if stop_requested: exit;
            result = infer(task); push(ResultQueue, result) }].
    The inference itself is opaque; here a result is the task's sequence
    number.  The state is the task in hand, if any.  A pull from an empty
    queue waits, and gives up once the stop event is set. *)
Definition spec_worker : Worker := {|
  worker_state := option Task.t;
  prediction := Z;
  choice := unit;
  worker_new := fun _ => None;
  worker_run := fun _ s stop inq outq =>
    match s with
    | None =>
        match inq with
        | [] => if stop then Return else Continue None inq outq
        | task :: rest => Continue (Some task) rest outq
        end
    | Some task =>
        if stop then Return
        else Continue None inq (put outq (Task.frame_num task))
    end
|}.

Inductive thread (S : Type) :=
  | Created (s : S)
  | Running (s : S)
  | Exited.
Arguments Created {S} s.
Arguments Running {S} s.
Arguments Exited {S}.

Definition is_exited {S} (t : thread S) : bool :=
  match t with Exited => true | _ => false end.

(** Where the pool process stands in [WorkerPool.run]. *)
Inductive pool_pc :=
  | PAbsent                (* no [WorkerPool] object yet *)
  | PNew                   (* constructed, [start()] not called *)
  | PSpawn                 (* [run] entered, line 44 *)
  | PStarting (k : nat)    (* line 46, [k] workers started *)
  | PWait                  (* lines 47-48, polling the event *)
  | PJoining (k : nat)     (* line 50, [k] workers joined *)
  | PExited.               (* [run] has returned *)

(** The [Flusher] thread, with the threshold it was built with. *)
Inductive service :=
  | SAbsent
  | SRunning (threshold : Z)
  | SStopped.

(** The [BroadcastReassembled] process. *)
Inductive activity :=
  | Absent
  | Active
  | Stopped.

(** What one step of an actor leads to. *)
Inductive outcome (A : Type) :=
  | Next (a : A)
  | Blocked
  | Raised (e : exn).
Arguments Next {A} a.
Arguments Blocked {A}.
Arguments Raised {A} e.

Inductive queue_take (A : Type) :=
  | Took (x : A) (rest : list A)
  | Empty.
Arguments Took {A} x rest.
Arguments Empty {A}.

Definition get_nowait {A} (q : list A) : queue_take A :=
  match q with
  | [] => Empty
  | x :: rest => Took x rest
  end.

Section Processes.
Context {M : Worker}.

Record World := mkWorld {
  main_thread : list Action;        (* what [main] has still to do *)
  output : DistributeFramesAndInfer;
  out_queue : list prediction;
  pool_size : Z;
  event_stopper : bool;
  pool_proc : pool_pc;
  pool : list (thread worker_state);
  pool_joined : bool;               (* [pool.join()] has returned *)
  in_cancelled : bool;
  out_cancelled : bool;
  recording : bool;                 (* splitter port 1 feeds [write] *)
  flusher : service;
  reassembler : activity;
  pool_log : list string
}.

Definition set_main_thread (v : list Action) (w : World) : World :=
  mkWorld v (output w) (out_queue w) (pool_size w) (event_stopper w)
    (pool_proc w) (pool w) (pool_joined w) (in_cancelled w) (out_cancelled w)
    (recording w) (flusher w) (reassembler w) (pool_log w).

Definition set_output (v : DistributeFramesAndInfer) (w : World) : World :=
  mkWorld (main_thread w) v (out_queue w) (pool_size w) (event_stopper w)
    (pool_proc w) (pool w) (pool_joined w) (in_cancelled w) (out_cancelled w)
    (recording w) (flusher w) (reassembler w) (pool_log w).

Definition set_out_queue (v : list prediction) (w : World) : World :=
  mkWorld (main_thread w) (output w) v (pool_size w) (event_stopper w)
    (pool_proc w) (pool w) (pool_joined w) (in_cancelled w) (out_cancelled w)
    (recording w) (flusher w) (reassembler w) (pool_log w).

Definition set_event_stopper (v : bool) (w : World) : World :=
  mkWorld (main_thread w) (output w) (out_queue w) (pool_size w) v
    (pool_proc w) (pool w) (pool_joined w) (in_cancelled w) (out_cancelled w)
    (recording w) (flusher w) (reassembler w) (pool_log w).

Definition set_pool_proc (v : pool_pc) (w : World) : World :=
  mkWorld (main_thread w) (output w) (out_queue w) (pool_size w)
    (event_stopper w) v (pool w) (pool_joined w) (in_cancelled w)
    (out_cancelled w) (recording w) (flusher w) (reassembler w) (pool_log w).

Definition set_pool (v : list (thread worker_state)) (w : World) : World :=
  mkWorld (main_thread w) (output w) (out_queue w) (pool_size w)
    (event_stopper w) (pool_proc w) v (pool_joined w) (in_cancelled w)
    (out_cancelled w) (recording w) (flusher w) (reassembler w) (pool_log w).

Definition set_pool_joined (v : bool) (w : World) : World :=
  mkWorld (main_thread w) (output w) (out_queue w) (pool_size w)
    (event_stopper w) (pool_proc w) (pool w) v (in_cancelled w)
    (out_cancelled w) (recording w) (flusher w) (reassembler w) (pool_log w).

Definition set_cancelled (q : queue_id) (w : World) : World :=
  mkWorld (main_thread w) (output w) (out_queue w) (pool_size w)
    (event_stopper w) (pool_proc w) (pool w) (pool_joined w)
    (match q with InQueue => true | OutQueue => in_cancelled w end)
    (match q with OutQueue => true | InQueue => out_cancelled w end)
    (recording w) (flusher w) (reassembler w) (pool_log w).

Definition set_recording (v : bool) (w : World) : World :=
  mkWorld (main_thread w) (output w) (out_queue w) (pool_size w)
    (event_stopper w) (pool_proc w) (pool w) (pool_joined w) (in_cancelled w)
    (out_cancelled w) v (flusher w) (reassembler w) (pool_log w).

Definition set_flusher (v : service) (w : World) : World :=
  mkWorld (main_thread w) (output w) (out_queue w) (pool_size w)
    (event_stopper w) (pool_proc w) (pool w) (pool_joined w) (in_cancelled w)
    (out_cancelled w) (recording w) v (reassembler w) (pool_log w).

Definition set_reassembler (v : activity) (w : World) : World :=
  mkWorld (main_thread w) (output w) (out_queue w) (pool_size w)
    (event_stopper w) (pool_proc w) (pool w) (pool_joined w) (in_cancelled w)
    (out_cancelled w) (recording w) (flusher w) v (pool_log w).

Definition add_pool_log (msg : string) (w : World) : World :=
  mkWorld (main_thread w) (output w) (out_queue w) (pool_size w)
    (event_stopper w) (pool_proc w) (pool w) (pool_joined w) (in_cancelled w)
    (out_cancelled w) (recording w) (flusher w) (reassembler w)
    (pool_log w ++ [msg]).

Definition set_in_queue (q : list Task.t) (w : World) : World :=
  set_output {| frame_num := frame_num (output w);
                pick_every_nth_frame := pick_every_nth_frame (output w);
                in_queue := q |} w.

(** Lines 57-62: a fresh object, fresh queues, a fresh event and a fresh,
    unstarted [WorkerPool]. *)
Definition new_world_output (workers nth : Z) (w : World) : World :=
  mkWorld (main_thread w) (new_output nth) [] workers false PNew [] false
    false false (recording w) (flusher w) (reassembler w) (pool_log w).

(** The effect of one call of [main] on the shared state.  [Process.start]
    and [Process.join] assert that the process was not, respectively was,
    started; [join] waits until [run] has returned. *)
Definition do_action (a : Action) (w : World) : outcome World :=
  match a with
  | NewOutput workers nth => Next (new_world_output workers nth w)
  | PoolStart =>
      match pool_proc w with
      | PNew => Next (set_pool_proc PSpawn w)
      | _ => Raised AssertionError
      end
  | PoolStop => Next (set_event_stopper true w)
  | PoolJoin =>
      match pool_proc w with
      | PAbsent | PNew => Raised AssertionError
      | PExited => Next (set_pool_joined true w)
      | _ => Blocked
      end
  | CancelJoinThread q => Next (set_cancelled q w)
  | StartRecording Port1 => Next (set_recording true w)
  | StopRecording Port1 => Next (set_recording false w)
  | ReassemblerStart => Next (set_reassembler Active w)
  | ReassemblerStop => Next (set_reassembler Stopped w)
  | FlusherStart threshold => Next (set_flusher (SRunning threshold) w)
  | FlusherStop => Next (set_flusher SStopped w)
  | InstallSignalHandlers | LogCritical _ | LogInfo _ | CameraOpen
  | CameraConfigure | CameraClose | StartRecording Port0
  | WaitRecording _ | StopRecording Port0 => Next w
  end.

(** Line 45: one worker object per index of [range(self.pool_size)]. *)
Definition spawn (size : Z) : list (thread worker_state) :=
  (fun i => Created (worker_new i)) <$> seq 0 (Z.to_nat size).

(** One step of the pool process through [WorkerPool.run]. *)
Definition pool_step (w : World) : outcome World :=
  match pool_proc w with
  | PSpawn =>
      Next (set_pool_proc (PStarting 0)
              (set_pool (spawn (pool_size w))
                 (add_pool_log "spawning workers on separate process" w)))
  | PStarting k =>
      match pool w !! k with
      | Some (Created s) =>
          Next (set_pool_proc (PStarting (S k))
                  (set_pool (<[k := Running s]> (pool w)) w))
      | Some _ => Raised AssertionError
      | None => Next (set_pool_proc PWait w)
      end
  | PWait =>
      if event_stopper w
      then Next (set_pool_proc (PJoining 0)
                   (add_pool_log "stoppping workers on separate process" w))
      else Next w
  | PJoining k =>
      match pool w !! k with
      | Some Exited => Next (set_pool_proc (PJoining (S k)) w)
      | Some _ => Blocked
      | None => Next (set_pool_proc PExited w)
      end
  | PAbsent | PNew | PExited => Blocked
  end.

(** One step of worker [i]: only a started worker that has not returned
    from [run] executes anything. *)
Definition worker_step (i : nat) (c : choice) (w : World) : outcome World :=
  match pool w !! i with
  | Some (Running s) =>
      match worker_run c s (event_stopper w) (in_queue (output w)) (out_queue w) with
      | Continue s' inq outq =>
          Next (set_pool (<[i := Running s']> (pool w))
                  (set_out_queue outq (set_in_queue inq w)))
      | Return => Next (set_pool (<[i := Exited]> (pool w)) w)
      end
  | _ => Blocked
  end.

(** The camera hands a chunk to [output.write] while it records on
    splitter port 1. *)
Definition camera_step (buf : bytes) (w : World) : outcome World :=
  if recording w then
    match write (output w) buf with
    | Ok o => Next (set_output o w)
    | Raise e => Raised e
    end
  else Blocked.

(** Modelled from the spec: one sample of the Load Shedder ([Flusher] is
    in [workers.py]); a stopped or unstarted shedder does nothing. *)
Definition flusher_step (w : World) : outcome World :=
  match flusher w with
  | SRunning threshold => Next (set_in_queue (shed threshold (in_queue (output w))) w)
  | _ => Blocked
  end.

(** Modelled from the spec: the external reassembler
    ([BroadcastReassembled] is in [workers.py]) takes results off the
    result queue in arrival order. *)
Definition reassembler_step (w : World) : outcome World :=
  match reassembler w, get_nowait (out_queue w) with
  | Active, Took _ rest => Next (set_out_queue rest w)
  | _, _ => Blocked
  end.

Definition main_step (w : World) : outcome World :=
  match main_thread w with
  | [] => Blocked
  | a :: rest =>
      match do_action a w with
      | Next w' => Next (set_main_thread rest w')
      | Blocked => Blocked
      | Raised e => Raised e
      end
  end.

(** Who moves next. *)
Inductive Label :=
  | LMain
  | LPool
  | LWorker (i : nat) (c : choice)
  | LCamera (buf : bytes)
  | LFlusher
  | LReassembler.

Definition is_worker_label (l : Label) : bool :=
  match l with LWorker _ _ => true | _ => false end.

Definition is_flusher_label (l : Label) : bool :=
  match l with LFlusher => true | _ => false end.

Definition step (l : Label) (w : World) : outcome World :=
  match l with
  | LMain => main_step w
  | LPool => pool_step w
  | LWorker i c => worker_step i c w
  | LCamera buf => camera_step buf w
  | LFlusher => flusher_step w
  | LReassembler => reassembler_step w
  end.

(** A schedule is the list of actors in the order they move. *)
Fixpoint run (schedule : list Label) (w : World) : outcome World :=
  match schedule with
  | [] => Next w
  | l :: rest =>
      match step l w with
      | Next w' => run rest w'
      | Blocked => Blocked
      | Raised e => Raised e
      end
  end.

(** The state in which [main] is entered. *)
Definition boot (file : ConfigFile) (rounds : nat) : World :=
  mkWorld (main file rounds) (new_output 0) [] 0 false PAbsent [] false
    false false false SAbsent Absent [].

(** The main thread calling a method: its statements become what the
    main thread has to do. *)
Definition call (body : list Action) (w : World) : World :=
  set_main_thread body w.

(** What the flusher will be once the main thread has run [prog]. *)
Fixpoint flusher_after (prog : list Action) (f : service) : service :=
  match prog with
  | [] => f
  | FlusherStart threshold :: rest => flusher_after rest (SRunning threshold)
  | FlusherStop :: rest => flusher_after rest SStopped
  | _ :: rest => flusher_after rest f
  end.

Definition is_new_output (a : Action) : bool :=
  match a with NewOutput _ _ => true | _ => false end.

Definition new_outputs (prog : list Action) : nat :=
  length (List.filter is_new_output prog).

(** Calls that start nothing: the signal handlers and the log. *)
Definition inert (a : Action) : bool :=
  match a with
  | InstallSignalHandlers | LogCritical _ | LogInfo _ => true
  | _ => false
  end.

(** Nothing has been started and [main] has only such calls left. *)
Definition dormant (w : World) : Prop :=
  pool_proc w = PAbsent ∧ pool w = [] ∧ flusher w = SAbsent ∧
  reassembler w = Absent ∧ recording w = false ∧
  in_queue (output w) = [] ∧ out_queue w = [] ∧
  Forall (λ a, inert a = true) (main_thread w).

Definition all_exited (ts : list (thread worker_state)) : Prop :=
  Forall (λ t, t = Exited) ts.

(** What holds of the pool in every reachable state: a joined pool process
    has returned from [run]; [run] gets past the joins only over workers
    that have exited; and [main] builds its one [DistributeFramesAndInfer]
    before anything exists. *)
Definition pool_inv (w : World) : Prop :=
  (pool_joined w = true → pool_proc w = PExited) ∧
  match pool_proc w with
  | PExited => all_exited (pool w)
  | PJoining k => all_exited (take k (pool w))
  | _ => True
  end ∧
  (new_outputs (main_thread w) ≤ 1)%nat ∧
  (pool_proc w ≠ PAbsent → new_outputs (main_thread w) = 0%nat).

(** [DistributeFramesAndInfer.stop] has got past [pool.join()]. *)
Definition stop_returned (w : World) : Prop :=
  pool_inv w ∧ event_stopper w = true ∧ pool_joined w = true.

Definition flusher_running (f : service) : bool :=
  match f with SRunning _ => true | _ => false end.

(** When the main thread has run what it still has to do, the flusher is
    not running. *)
Definition flusher_inv (w : World) : Prop :=
  flusher_running (flusher_after (main_thread w) (flusher w)) = false.

Definition pool_stopped (w : World) : Prop :=
  event_stopper w = true ∧ pool_proc w = PExited ∧ pool_joined w = true.

(** Where the main thread stands inside [DistributeFramesAndInfer.stop],
    and what it has achieved by then. *)
Definition stop_progress (w : World) : Prop :=
  main_thread w = output_stop
  ∨ (main_thread w = [PoolJoin; CancelJoinThread InQueue; CancelJoinThread OutQueue]
     ∧ event_stopper w = true)
  ∨ (main_thread w = [CancelJoinThread InQueue; CancelJoinThread OutQueue]
     ∧ pool_stopped w)
  ∨ (main_thread w = [CancelJoinThread OutQueue]
     ∧ pool_stopped w ∧ in_cancelled w = true)
  ∨ (main_thread w = []
     ∧ pool_stopped w ∧ in_cancelled w = true ∧ out_cancelled w = true).

End Processes.

(** The tasks [writes] enqueues for a run of frame starts that begins at
    counter value [k]. *)
Definition picked (nth k : Z) (chunks : list bytes) : list Task.t :=
  filter (λ t, Task.frame_num t mod nth = 0)
         (imap (λ i buf, {| Task.frame_num := k + Z.of_nat i; Task.jpeg := buf |}) chunks).

(** The sequence numbers on the queue are increasing and all below the
    counter: this holds at the start and every [write] keeps it. *)
Definition queue_ordered (self : DistributeFramesAndInfer) : Prop :=
  StronglySorted Z.lt (Task.frame_num <$> in_queue self) ∧
  Forall (λ t, Task.frame_num t < frame_num self) (in_queue self).

(** The teardown order of section 4.4 of the specification: capture, pool,
    Load Shedder, reassembler. *)
Definition spec_teardown_order (tr : list Action) : bool :=
  precedes (StopRecording Port1) PoolStop tr
  && precedes PoolStop PoolJoin tr
  && precedes PoolJoin FlusherStop tr
  && precedes FlusherStop ReassemblerStop tr.

(** The teardown order of lines 142-147: capture, pool, reassembler, Load
    Shedder. *)
Definition code_teardown_order (tr : list Action) : bool :=
  precedes (StopRecording Port0) (StopRecording Port1) tr
  && precedes (StopRecording Port1) PoolStop tr
  && precedes PoolStop PoolJoin tr
  && precedes PoolJoin ReassemblerStop tr
  && precedes ReassemblerStop FlusherStop tr.

Definition sample_config : Config :=
  {| cfg_workers := 2; cfg_pick_every_nth_frame := 1;
     cfg_frame_count_threshold := 1; cfg_output_file := "video.h264" |}.

(** A run of the whole program with the worker loop of the specification:
    two workers, every frame kept, threshold 1. *)
Definition frame (b : byte) : bytes := [xff; xd8; b].

Definition worker (i : nat) : Label (M := spec_worker) :=
  LWorker (M := spec_worker) i tt.

Definition run_until_pool_stop : list (Label (M := spec_worker)) :=
  replicate 13 LMain                        (* start-up, recording begins *)
  ++ [LPool; LPool; LPool; LPool]           (* spawn and start both workers *)
  ++ [LCamera (frame x00); LCamera (frame x01); LCamera (frame x02)]
  ++ [worker 0; worker 0]                   (* worker 0 infers frame 0 *)
  ++ [LMain; LMain; LMain; LMain].          (* stop recording, [pool.stop()] *)

Definition run_until_pool_joined : list (Label (M := spec_worker)) :=
  run_until_pool_stop
  ++ [LPool]                                (* the pool sees the event *)
  ++ [worker 0; worker 0; worker 1; worker 1] (* each takes a task, then exits *)
  ++ [LPool; LPool; LPool]                  (* both joins, [run] returns *)
  ++ [LMain].                               (* [pool.join()] returns *)

Definition run_until_exit : list (Label (M := spec_worker)) :=
  run_until_pool_joined ++ replicate 5 LMain.

(** The states these runs end in. *)
Definition end_of (schedule : list (Label (M := spec_worker))) : World (M := spec_worker) :=
  match run schedule (boot (Parsed sample_config) 0) with
  | Next w => w
  | _ => boot (Parsed sample_config) 0
  end.

Definition at_pool_stop : World (M := spec_worker) :=
  Eval vm_compute in end_of run_until_pool_stop.

Definition at_pool_joined : World (M := spec_worker) :=
  Eval vm_compute in end_of run_until_pool_joined.

Definition at_exit : World (M := spec_worker) :=
  Eval vm_compute in end_of run_until_exit.

(** A pool of two started workers waiting for work, as [stop] finds it. *)
Definition waiting_pool : World (M := spec_worker) :=
  mkWorld (M := spec_worker) [] (new_output 1) [] 2 false PWait
    [Running None; Running None] false false false false (SRunning 1) Active
    ["spawning workers on separate process"%string].

Definition first_stop : list (Label (M := spec_worker)) :=
  [LMain; LPool; worker 1; worker 0; LPool; LPool; LPool; LMain; LMain; LMain].

Definition after_first_stop : World (M := spec_worker) :=
  Eval vm_compute in
    match run first_stop (call output_stop waiting_pool) with
    | Next w => w
    | _ => waiting_pool
    end.

(** ** Further definitions for the segmenter *)

(** The same object with another decimation factor. *)
Definition with_factor (nth : Z) (self : DistributeFramesAndInfer)
  : DistributeFramesAndInfer :=
  {| frame_num := frame_num self;
     pick_every_nth_frame := nth;
     in_queue := in_queue self |}.

Definition result_map {A B} (f : A → B) (r : result A) : result B :=
  match r with
  | Ok a => Ok (f a)
  | Raise e => Raise e
  end.

Definition is_soi (buf : bytes) : Prop := startswith_soi buf = true.

(** What every task on the work queue satisfies, given the chunks the
    camera has handed over so far. *)
Definition task_sound (seen : list bytes) (self : DistributeFramesAndInfer)
  (t : Task.t) : Prop :=
  Task.jpeg t ∈ seen ∧
  startswith_soi (Task.jpeg t) = true ∧
  0 ≤ Task.frame_num t < frame_num self ∧
  Task.frame_num t mod pick_every_nth_frame self = 0.


(** ** Further definitions for the process model *)

(** What [main] can know of the pool process object: whether it exists and
    whether [start()] has been called on it. *)
Inductive pool_status := NoPool | Unstarted | Started.

Definition status_of (pc : pool_pc) : pool_status :=
  match pc with
  | PAbsent => NoPool
  | PNew => Unstarted
  | _ => Started
  end.

(** A check of what the main thread has still to do, given the pool status
    and the stop event: the object is built once, from the configuration,
    before the pool is started and before the camera records into it; the
    pool is started once and joined only after the stop event is set; the
    flusher gets the configured threshold. *)
Fixpoint main_ok (cfg : Config) (st : pool_status) (ev : bool) (prog : list Action)
  : bool :=
  match prog with
  | [] => true
  | NewOutput workers nth :: rest =>
      match st with
      | NoPool =>
          (workers =? cfg_workers cfg) && (nth =? cfg_pick_every_nth_frame cfg)
          && main_ok cfg Unstarted false rest
      | _ => false
      end
  | PoolStart :: rest =>
      match st with
      | Unstarted => main_ok cfg Started ev rest
      | _ => false
      end
  | PoolStop :: rest => main_ok cfg st true rest
  | PoolJoin :: rest =>
      match st with
      | Started => ev && main_ok cfg st ev rest
      | _ => false
      end
  | StartRecording Port1 :: rest =>
      match st with
      | NoPool => false
      | _ => main_ok cfg st ev rest
      end
  | FlusherStart threshold :: rest =>
      (threshold =? cfg_frame_count_threshold cfg) && main_ok cfg st ev rest
  | _ :: rest => main_ok cfg st ev rest
  end.

(** What only the main thread assigns, as it stands in a state. *)
Record main_view := mkView {
  v_pool : pool_status;
  v_event : bool;
  v_joined : bool;
  v_in_cancelled : bool;
  v_out_cancelled : bool;
  v_recording : bool;
  v_flusher : service;
  v_reassembler : activity
}.

(** The effect of a call of [main] that returns on what the main thread
    assigns ([do_action], seen from the main thread). *)
Definition apply_action (a : Action) (v : main_view) : main_view :=
  match a with
  | NewOutput _ _ =>
      mkView Unstarted false false false false
        (v_recording v) (v_flusher v) (v_reassembler v)
  | PoolStart =>
      mkView Started (v_event v) (v_joined v) (v_in_cancelled v) (v_out_cancelled v)
        (v_recording v) (v_flusher v) (v_reassembler v)
  | PoolStop =>
      mkView (v_pool v) true (v_joined v) (v_in_cancelled v) (v_out_cancelled v)
        (v_recording v) (v_flusher v) (v_reassembler v)
  | PoolJoin =>
      mkView (v_pool v) (v_event v) true (v_in_cancelled v) (v_out_cancelled v)
        (v_recording v) (v_flusher v) (v_reassembler v)
  | CancelJoinThread InQueue =>
      mkView (v_pool v) (v_event v) (v_joined v) true (v_out_cancelled v)
        (v_recording v) (v_flusher v) (v_reassembler v)
  | CancelJoinThread OutQueue =>
      mkView (v_pool v) (v_event v) (v_joined v) (v_in_cancelled v) true
        (v_recording v) (v_flusher v) (v_reassembler v)
  | StartRecording Port1 =>
      mkView (v_pool v) (v_event v) (v_joined v) (v_in_cancelled v) (v_out_cancelled v)
        true (v_flusher v) (v_reassembler v)
  | StopRecording Port1 =>
      mkView (v_pool v) (v_event v) (v_joined v) (v_in_cancelled v) (v_out_cancelled v)
        false (v_flusher v) (v_reassembler v)
  | FlusherStart threshold =>
      mkView (v_pool v) (v_event v) (v_joined v) (v_in_cancelled v) (v_out_cancelled v)
        (v_recording v) (SRunning threshold) (v_reassembler v)
  | FlusherStop =>
      mkView (v_pool v) (v_event v) (v_joined v) (v_in_cancelled v) (v_out_cancelled v)
        (v_recording v) SStopped (v_reassembler v)
  | ReassemblerStart =>
      mkView (v_pool v) (v_event v) (v_joined v) (v_in_cancelled v) (v_out_cancelled v)
        (v_recording v) (v_flusher v) Active
  | ReassemblerStop =>
      mkView (v_pool v) (v_event v) (v_joined v) (v_in_cancelled v) (v_out_cancelled v)
        (v_recording v) (v_flusher v) Stopped
  | _ => v
  end.

(** While the camera records into the object, the rest of the pipeline is
    up: the pool process has been started and not asked to stop, the flusher
    runs and the reassembler is active. *)
Definition pipeline_up_if_recording (v : main_view) : bool :=
  if v_recording v then
    match v_pool v, v_flusher v, v_reassembler v with
    | Started, SRunning _, Active => negb (v_event v) && negb (v_joined v)
    | _, _, _ => false
    end
  else true.

(** Everything has been shut down. *)
Definition is_shutdown (v : main_view) : bool :=
  match v_pool v, v_flusher v, v_reassembler v with
  | Started, SStopped, Stopped =>
      v_event v && v_joined v && v_in_cancelled v && v_out_cancelled v
      && negb (v_recording v)
  | _, _, _ => false
  end.

(** A check of what the main thread has still to do, from a view: the
    camera never records into a pipeline that is not up, and at the end
    everything is shut down. *)
Fixpoint main_safe (v : main_view) (prog : list Action) : bool :=
  match prog with
  | [] => is_shutdown v
  | a :: rest => pipeline_up_if_recording v && main_safe (apply_action a v) rest
  end.

Definition is_created {S} (t : thread S) : bool :=
  match t with Created _ => true | _ => false end.

Section ProcessInvariants.
Context {M : Worker}.

(** The configuration is in force: the object and the flusher hold the
    configured values, and the camera records only into an existing object. *)
Definition config_inv (cfg : Config) (w : World) : Prop :=
  main_ok cfg (status_of (pool_proc w)) (event_stopper w) (main_thread w) = true ∧
  (pool_proc w ≠ PAbsent →
   pool_size w = cfg_workers cfg ∧
   pick_every_nth_frame (output w) = cfg_pick_every_nth_frame cfg) ∧
  (recording w = true → pool_proc w ≠ PAbsent) ∧
  (∀ threshold, flusher w = SRunning threshold →
                threshold = cfg_frame_count_threshold cfg).

(** The shape of the pool at each point of [WorkerPool.run]. *)
Definition pool_shape (w : World) : Prop :=
  match pool_proc w with
  | PAbsent | PNew | PSpawn => pool w = []
  | PStarting k =>
      length (pool w) = Z.to_nat (pool_size w) ∧
      (∀ i t, (k ≤ i)%nat → pool w !! i = Some t → is_created t = true) ∧
      (∀ i t, (i < k)%nat → pool w !! i = Some t → is_created t = false)
  | PWait =>
      length (pool w) = Z.to_nat (pool_size w) ∧
      Forall (λ t, is_created t = false) (pool w)
  | PJoining _ | PExited =>
      length (pool w) = Z.to_nat (pool_size w) ∧
      Forall (λ t, is_created t = false) (pool w) ∧
      event_stopper w = true
  end.

Definition view_of (w : World) : main_view :=
  mkView (status_of (pool_proc w)) (event_stopper w) (pool_joined w)
    (in_cancelled w) (out_cancelled w) (recording w) (flusher w) (reassembler w).

(** Workers that only take tasks off the work queue and never put any on
    it or reorder it. *)
Definition consumer_only : Prop :=
  ∀ c s stop inq outq s' inq' outq',
    worker_run c s stop inq outq = Continue s' inq' outq' →
    inq' `sublist_of` inq.

(** The chunks beginning a frame that a schedule lets the camera hand over. *)
Definition frame_starts (schedule : list Label) : list bytes :=
  omap (λ l, match l with
             | LCamera buf => if startswith_soi buf then Some buf else None
             | _ => None
             end) schedule.

End ProcessInvariants.

(** A configuration whose decimation factor is 0, and a run with it up to
    the first frame the camera hands over. *)
Definition zero_factor_config : Config :=
  {| cfg_workers := 1; cfg_pick_every_nth_frame := 0;
     cfg_frame_count_threshold := 5; cfg_output_file := "video.h264" |}.

Definition run_until_first_frame : list (Label (M := spec_worker)) :=
  replicate 13 LMain ++ [LCamera (frame x00)].

(** A run that stops while the camera is recording: start-up, the pool
    process up, two frames written, one pulled by a worker. *)
Definition run_while_recording : list (Label (M := spec_worker)) :=
  replicate 13 LMain
  ++ [LPool; LPool; LPool; LPool]
  ++ [LCamera (frame x00); LCamera (frame x01)]
  ++ [worker 1].

Definition while_recording : World (M := spec_worker) :=
  Eval vm_compute in end_of run_while_recording.

(** * Properties *)

(** ** The segmenter *)

Example write_first_frame :
  write (new_output 3) [xff; xd8; x01]
  = Ok {| frame_num := 1; pick_every_nth_frame := 3;
          in_queue := [ {| Task.frame_num := 0; Task.jpeg := [xff; xd8; x01] |} ] |}.
Proof. reflexivity. Qed.

Example write_zero_factor : write (new_output 0) [xff; xd8] = Raise ZeroDivisionError.
Proof. reflexivity. Qed.

Lemma py_mod_nonzero (a b : Z) : b ≠ 0 → py_mod a b = Ok (a mod b).
Proof.
  intros Hb. unfold py_mod. destruct (Z.eqb_spec b 0); [contradiction | reflexivity].
Qed.

(** What [write] does with a chunk that starts a frame. *)
Lemma write_soi (self : DistributeFramesAndInfer) (buf : bytes) :
  pick_every_nth_frame self ≠ 0 →
  startswith_soi buf = true →
  write self buf =
    Ok {| frame_num := frame_num self + 1;
          pick_every_nth_frame := pick_every_nth_frame self;
          in_queue :=
            in_queue self ++
            filter (λ t, Task.frame_num t mod pick_every_nth_frame self = 0)
                   [ {| Task.frame_num := frame_num self; Task.jpeg := buf |} ] |}.
Proof.
  intros Hn Hsoi. unfold write. rewrite Hsoi, (py_mod_nonzero _ _ Hn). cbn.
  destruct (Z.eqb_spec (frame_num self mod pick_every_nth_frame self) 0) as [E|E];
    destruct (decide _) as [D|D]; try contradiction.
  - reflexivity.
  - unfold put. rewrite app_nil_r. reflexivity.
Qed.

Lemma write_other (self : DistributeFramesAndInfer) (buf : bytes) :
  startswith_soi buf = false → write self buf = Ok self.
Proof. intros H. unfold write. rewrite H. reflexivity. Qed.

Lemma picked_cons (nth k : Z) (buf : bytes) (chunks : list bytes) :
  picked nth k (buf :: chunks)
  = filter (λ t, Task.frame_num t mod nth = 0)
           [ {| Task.frame_num := k; Task.jpeg := buf |} ]
    ++ picked nth (k + 1) chunks.
Proof.
  unfold picked. rewrite imap_cons. change (?x :: ?l) with ([x] ++ l) at 1.
  rewrite list.filter_app. f_equal.
  - cbn. rewrite Z.add_0_r. reflexivity.
  - f_equal. apply imap_ext. intros i c _. cbn. f_equal. lia.
Qed.

Lemma writes_soi (chunks : list bytes) : ∀ self : DistributeFramesAndInfer,
  pick_every_nth_frame self ≠ 0 →
  Forall (λ buf, startswith_soi buf = true) chunks →
  writes self chunks =
    Ok {| frame_num := frame_num self + Z.of_nat (length chunks);
          pick_every_nth_frame := pick_every_nth_frame self;
          in_queue := in_queue self
                      ++ picked (pick_every_nth_frame self) (frame_num self) chunks |}.
Proof.
  induction chunks as [|buf chunks IH]; intros self Hn Hall.
  - cbn. unfold picked. cbn. rewrite Z.add_0_r, app_nil_r. destruct self; reflexivity.
  - inversion Hall as [|? ? Hbuf Hrest]; subst.
    cbn [writes]. rewrite (write_soi _ _ Hn Hbuf). cbn [mbind result_bind].
    rewrite IH by (cbn; assumption). cbn [frame_num pick_every_nth_frame in_queue].
    rewrite picked_cons, <- app_assoc. do 2 f_equal.
    rewrite length_cons. lia.
Qed.

Lemma picked_frame_nums (nth k : Z) (chunks : list bytes) :
  Task.frame_num <$> picked nth k chunks
  = filter (λ i, i mod nth = 0) (seqZ k (Z.of_nat (length chunks))).
Proof.
  revert k. induction chunks as [|buf chunks IH]; intros k.
  - reflexivity.
  - rewrite picked_cons, fmap_app, IH, length_cons.
    rewrite Nat2Z.inj_succ, (seqZ_cons k (Z.succ _)) by lia.
    rewrite Z.pred_succ, (filter_cons _ k (seqZ _ _)).
    replace (Z.succ k) with (k + 1) by lia.
    rewrite filter_cons, filter_nil. cbn.
    destruct (decide (k mod nth = 0)); reflexivity.
Qed.

(** C1.  With a decimation factor [nth >= 1], feeding [K] chunks that each
    begin with the frame-start marker to a fresh object enqueues exactly the
    frames whose observation index is a multiple of [nth], each with its
    index as sequence number and its chunk as payload, in increasing order;
    with [nth = 3] and ten chunks the sequence numbers are 0, 3, 6 and 9. *)
Theorem decimation_keeps_multiples (nth : Z) (chunks : list bytes) :
  1 ≤ nth →
  Forall (λ buf, startswith_soi buf = true) chunks →
  ∃ self,
    writes (new_output nth) chunks = Ok self ∧
    in_queue self =
      filter (λ t, Task.frame_num t mod nth = 0)
             (imap (λ i buf, {| Task.frame_num := Z.of_nat i; Task.jpeg := buf |}) chunks) ∧
    Task.frame_num <$> in_queue self
      = filter (λ i, i mod nth = 0) (seqZ 0 (Z.of_nat (length chunks))) ∧
    (nth = 3 → length chunks = 10%nat →
     Task.frame_num <$> in_queue self = [0; 3; 6; 9]).
Proof.
  intros Hn Hall. eexists. split.
  - apply writes_soi; [cbn; lia | assumption].
  - cbn [in_queue new_output frame_num pick_every_nth_frame app].
    split; [reflexivity | split].
    + apply picked_frame_nums.
    + intros -> Hlen. rewrite picked_frame_nums, Hlen. reflexivity.
Qed.

Lemma decimation_keeps_multiples_witness :
  ∃ self,
    writes (new_output 2) [[xff; xd8; x01]; [xff; xd8; x02]; [xff; xd8; x03]] = Ok self ∧
    Task.frame_num <$> in_queue self = [0; 2].
Proof.
  destruct (decimation_keeps_multiples 2
              [[xff; xd8; x01]; [xff; xd8; x02]; [xff; xd8; x03]])
    as (self & Hrun & _ & Hnums & _).
  - lia.
  - repeat constructor.
  - exists self. split; [exact Hrun | exact Hnums].
Defined.

(** C5, as the specification words it, fails: a chunk without the marker is
    not appended to anything.  With frame 0 waiting on the queue, the chunk
    [02 03] leaves the object exactly as it was, so the bytes held are still
    those of the first chunk alone. *)
Lemma continuation_bytes_not_appended :
  let self := {| frame_num := 1; pick_every_nth_frame := 1;
                 in_queue := [ {| Task.frame_num := 0; Task.jpeg := [xff; xd8; x01] |} ] |} in
  let buf := [x02; x03] in
  writes (new_output 1) [[xff; xd8; x01]] = Ok self ∧
  startswith_soi buf = false ∧
  write self buf = Ok self ∧
  held_bytes (after_write self buf) = [xff; xd8; x01] ∧
  held_bytes (after_write self buf) ≠ held_bytes self ++ buf.
Proof. cbv zeta. repeat split; try reflexivity. discriminate. Qed.

(** C5, amended.  A chunk that does not begin with the frame-start marker
    raises no error and changes nothing: the counter, the decimation factor
    and the work queue are as before, whatever the decimation factor is.
    The chunk is dropped, neither counted nor decimated. *)
Theorem write_without_marker_is_noop (self : DistributeFramesAndInfer) (buf : bytes) :
  startswith_soi buf = false →
  write self buf = Ok self ∧
  after_write self buf = self ∧
  held_bytes (after_write self buf) = held_bytes self.
Proof.
  intros H. pose proof (write_other self buf H) as E.
  unfold after_write. rewrite E. auto.
Qed.

Lemma write_without_marker_is_noop_witness :
  write (new_output 3) [x02; x03] = Ok (new_output 3) ∧
  after_write (new_output 3) [x02; x03] = new_output 3 ∧
  held_bytes (after_write (new_output 3) [x02; x03]) = held_bytes (new_output 3).
Proof. apply (write_without_marker_is_noop (new_output 3) [x02; x03]). reflexivity. Defined.

(** C6, as the specification words it, fails: incrementing before the test
    would drop the very first frame when [N = 3] and would number the next
    kept frame 3 only after three frames, whereas the code keeps frame 0. *)
Lemma increment_first_differs :
  write (new_output 3) [xff; xd8]
    = Ok {| frame_num := 1; pick_every_nth_frame := 3;
            in_queue := [ {| Task.frame_num := 0; Task.jpeg := [xff; xd8] |} ] |} ∧
  write_increment_first (new_output 3) [xff; xd8]
    = Ok {| frame_num := 1; pick_every_nth_frame := 3; in_queue := [] |} ∧
  write (new_output 3) [xff; xd8] ≠ write_increment_first (new_output 3) [xff; xd8].
Proof. repeat split; try reflexivity. discriminate. Qed.

(** C6, amended.  On a chunk that begins a frame, with a non-zero
    decimation factor, [write] tests the counter as it is before the
    increment; when [counter mod N = 0] it enqueues a task carrying that
    counter value and the chunk, otherwise it enqueues nothing; in both cases
    the counter is one more afterwards. *)
Theorem write_tests_then_increments (self : DistributeFramesAndInfer) (buf : bytes) :
  pick_every_nth_frame self ≠ 0 →
  startswith_soi buf = true →
  ∃ self',
    write self buf = Ok self' ∧
    frame_num self' = frame_num self + 1 ∧
    pick_every_nth_frame self' = pick_every_nth_frame self ∧
    ((frame_num self mod pick_every_nth_frame self = 0 ∧
      in_queue self' =
        in_queue self ++ [ {| Task.frame_num := frame_num self; Task.jpeg := buf |} ])
     ∨
     (frame_num self mod pick_every_nth_frame self ≠ 0 ∧
      in_queue self' = in_queue self)).
Proof.
  intros Hn Hsoi. eexists. split; [apply (write_soi _ _ Hn Hsoi) |].
  cbn [frame_num pick_every_nth_frame in_queue]. do 2 (split; [reflexivity |]).
  rewrite filter_cons, filter_nil. cbn.
  destruct (decide _) as [D|D]; [left | right]; split; auto.
  apply app_nil_r.
Qed.

Lemma write_tests_then_increments_witness :
  ∃ self',
    write (mkOutput 6 3 []) [xff; xd8; x07] = Ok self' ∧
    frame_num self' = 7 ∧
    Task.frame_num <$> in_queue self' = [6].
Proof.
  destruct (write_tests_then_increments (mkOutput 6 3 []) [xff; xd8; x07])
    as (self' & Hw & Hnum & _ & [[_ Hq] | [Hne _]]).
  - cbn. lia.
  - reflexivity.
  - exists self'. rewrite Hq. auto.
  - exfalso. apply Hne. reflexivity.
Defined.

Lemma StronglySorted_snoc (l : list Z) (x : Z) :
  StronglySorted Z.lt l → Forall (λ y, y < x) l → StronglySorted Z.lt (l ++ [x]).
Proof.
  induction 1 as [|a l Hs IH Ha]; intros Hx.
  - cbn. repeat constructor.
  - inversion Hx; subst. cbn. constructor; [auto |].
    apply Forall_app. split; [assumption |]. repeat constructor. assumption.
Qed.

Lemma queue_ordered_new (nth : Z) : queue_ordered (new_output nth).
Proof. split; cbn; constructor. Qed.

Lemma queue_ordered_write (self self' : DistributeFramesAndInfer) (buf : bytes) :
  queue_ordered self → write self buf = Ok self' → queue_ordered self'.
Proof.
  intros [Hs Hb] Hw. unfold write in Hw.
  destruct (startswith_soi buf); [| injection Hw as <-; split; assumption].
  unfold py_mod in Hw. destruct (pick_every_nth_frame self =? 0); [discriminate |].
  cbn in Hw. injection Hw as <-. unfold queue_ordered. cbn.
  assert (Hb' : Forall (λ t, Task.frame_num t < frame_num self + 1) (in_queue self)).
  { eapply list.Forall_impl; [exact Hb |]. cbn. intros; lia. }
  destruct (_ =? 0); [| auto]. unfold put. split.
  - rewrite fmap_app. apply StronglySorted_snoc; [assumption |].
    apply Forall_fmap. exact Hb.
  - apply Forall_app. split; [assumption |]. repeat constructor. cbn. lia.
Qed.

Lemma frame_num_after_write (self : DistributeFramesAndInfer) (buf : bytes) :
  frame_num (after_write self buf) = frame_num self
  ∨ frame_num (after_write self buf) = frame_num self + 1.
Proof.
  unfold after_write, write. destruct (startswith_soi buf); [| auto].
  unfold py_mod. destruct (_ =? 0); cbn; auto.
Qed.

Lemma writes_counts_frame_starts (chunks : list bytes) :
  ∀ self : DistributeFramesAndInfer,
  pick_every_nth_frame self ≠ 0 →
  queue_ordered self →
  ∃ self',
    writes self chunks = Ok self' ∧
    pick_every_nth_frame self' = pick_every_nth_frame self ∧
    frame_num self' =
      frame_num self + Z.of_nat (length (filter (λ buf, startswith_soi buf = true) chunks)) ∧
    queue_ordered self'.
Proof.
  induction chunks as [|buf chunks IH]; intros self Hn Hord.
  - exists self. cbn. rewrite Z.add_0_r. auto.
  - cbn [writes]. rewrite filter_cons.
    destruct (decide (startswith_soi buf = true)) as [Hsoi|Hsoi].
    + pose proof (write_soi _ _ Hn Hsoi) as Hw.
      pose proof (queue_ordered_write _ _ _ Hord Hw) as Hord'.
      rewrite Hw. cbn [mbind result_bind].
      destruct (IH _ (Hn : pick_every_nth_frame (mkOutput _ _ _) ≠ 0) Hord')
        as (self' & Hrun & Hnth & Hnum & Hq).
      exists self'. cbn in Hnth, Hnum. rewrite length_cons.
      split; [assumption |]. split; [assumption |]. split; [lia | assumption].
    + apply not_true_is_false in Hsoi. rewrite (write_other _ _ Hsoi).
      cbn [mbind result_bind]. apply IH; assumption.
Qed.

(** C9.  The counter starts at 0.  No call of [write] lowers it, whatever
    the chunk and the decimation factor, and nothing else in the object's
    methods assigns it.  With a non-zero decimation factor every chunk that
    begins a frame raises it by exactly one, kept or dropped, and every other
    chunk leaves it alone, so after any run it equals the number of frame
    starts seen; and the sequence numbers on the work queue are strictly
    increasing in enqueue order. *)
Theorem counter_monotone (nth : Z) (chunks : list bytes) :
  nth ≠ 0 →
  frame_num (new_output nth) = 0 ∧
  (∀ self buf, frame_num self ≤ frame_num (after_write self buf)) ∧
  (∀ self buf, pick_every_nth_frame self = nth →
     frame_num (after_write self buf)
     = frame_num self + (if startswith_soi buf then 1 else 0)) ∧
  ∃ self,
    writes (new_output nth) chunks = Ok self ∧
    frame_num self
      = Z.of_nat (length (filter (λ buf, startswith_soi buf = true) chunks)) ∧
    StronglySorted Z.lt (Task.frame_num <$> in_queue self).
Proof.
  intros Hn. split; [reflexivity |]. split; [| split].
  - intros self buf. destruct (frame_num_after_write self buf); lia.
  - intros self buf Hnth. subst nth. unfold after_write.
    destruct (startswith_soi buf) eqn:Hsoi.
    + rewrite (write_soi _ _ Hn Hsoi). reflexivity.
    + rewrite (write_other _ _ Hsoi). lia.
  - destruct (writes_counts_frame_starts chunks (new_output nth) Hn (queue_ordered_new nth))
      as (self & Hrun & _ & Hnum & Hs & _).
    exists self. cbn in Hnum. auto.
Qed.

Lemma counter_monotone_witness :
  ∃ self,
    writes (new_output 2) [[xff; xd8]; [x00]; [xff; xd8]; [xff; xd8; x05]] = Ok self ∧
    frame_num self = 3 ∧
    StronglySorted Z.lt (Task.frame_num <$> in_queue self).
Proof.
  destruct (counter_monotone 2 [[xff; xd8]; [x00]; [xff; xd8]; [xff; xd8; x05]])
    as (_ & _ & _ & self & Hrun & Hnum & Hs).
  - lia.
  - exists self. auto.
Defined.

(** ** The order of calls in [main] *)

Lemma main_parsed (cfg : Config) (rounds : nat) :
  main (Parsed cfg) rounds
  = (InstallSignalHandlers :: startup cfg) ++ wait_loop rounds ++ teardown.
Proof. reflexivity. Qed.

Lemma index_of_app_absent (a : Action) (l1 l2 : list Action) :
  index_of a l1 = None →
  index_of a (l1 ++ l2) = (λ i, (length l1 + i)%nat) <$> index_of a l2.
Proof.
  induction l1 as [|b l1 IH]; cbn; intros H.
  - destruct (index_of a l2); reflexivity.
  - destruct (Action_eqb a b); [discriminate |].
    destruct (index_of a l1); [discriminate |].
    rewrite IH by reflexivity. destruct (index_of a l2); reflexivity.
Qed.

Lemma precedes_app_absent (a b : Action) (l1 l2 : list Action) :
  index_of a l1 = None → index_of b l1 = None →
  precedes a b (l1 ++ l2) = precedes a b l2.
Proof.
  intros Ha Hb. unfold precedes.
  rewrite (index_of_app_absent a), (index_of_app_absent b) by assumption.
  destruct (index_of a l2) as [i|], (index_of b l2) as [j|];
    cbn [fmap option_fmap option_map]; try reflexivity.
  destruct (Nat.ltb_spec i j), (Nat.ltb_spec (length l1 + i) (length l1 + j));
    try reflexivity; lia.
Qed.

Lemma index_of_wait_loop (a : Action) (rounds : nat) :
  index_of a wait_round = None → index_of a (wait_loop rounds) = None.
Proof.
  intros H. induction rounds as [|k IH]; [reflexivity |].
  cbn [wait_loop]. rewrite index_of_app_absent, IH by assumption. reflexivity.
Qed.

(** The order of two teardown calls in a run of [main] is their order in
    [teardown]: neither occurs during start-up or in the waiting loop. *)
Lemma precedes_in_main (a b : Action) (cfg : Config) (rounds : nat) :
  index_of a (InstallSignalHandlers :: startup cfg) = None →
  index_of b (InstallSignalHandlers :: startup cfg) = None →
  index_of a wait_round = None → index_of b wait_round = None →
  precedes a b (main (Parsed cfg) rounds) = precedes a b teardown.
Proof.
  intros Ha Hb Ha' Hb'. rewrite main_parsed.
  rewrite precedes_app_absent by assumption.
  apply precedes_app_absent; apply index_of_wait_loop; assumption.
Qed.

(** C2, as the specification words it, fails: [main] stops the reassembler
    before the flusher, so the Load Shedder is stopped last, not third. *)
Lemma shedder_not_stopped_before_reassembler :
  spec_teardown_order (main (Parsed sample_config) 2) = false ∧
  precedes FlusherStop ReassemblerStop (main (Parsed sample_config) 2) = false ∧
  precedes ReassemblerStop FlusherStop (main (Parsed sample_config) 2) = true.
Proof. repeat split; reflexivity. Qed.

(** C2, amended.  For every configuration that loads and however long the
    waiting loop ran, [main] ends with the teardown calls in this order:
    stop recording on both splitter ports, set the pool's stop event, join
    the pool process, cancel the join threads of the two queues, close the
    camera, stop the reassembler, and last stop the flusher. *)
Theorem teardown_order (cfg : Config) (rounds : nat) :
  main (Parsed cfg) rounds
  = InstallSignalHandlers :: startup cfg ++ wait_loop rounds
    ++ [LogInfo "gracefully exiting";
        StopRecording Port0; StopRecording Port1;
        PoolStop; PoolJoin;
        CancelJoinThread InQueue; CancelJoinThread OutQueue;
        CameraClose; ReassemblerStop; FlusherStop] ∧
  code_teardown_order (main (Parsed cfg) rounds) = true ∧
  precedes FlusherStop ReassemblerStop (main (Parsed cfg) rounds) = false.
Proof.
  split; [reflexivity |]. unfold code_teardown_order.
  rewrite !precedes_in_main by reflexivity. split; reflexivity.
Qed.

(** ** The Load Shedder *)

Lemma shed_drop {A} (threshold : Z) (q : list A) :
  0 ≤ threshold →
  shed threshold q = drop (length q - Z.to_nat threshold) q.
Proof.
  intros Ht. induction q as [|x q IH]; [reflexivity |].
  cbn [shed]. destruct (Z.ltb_spec threshold (Z.of_nat (length (x :: q)))) as [Hlt|Hge].
  - rewrite IH. rewrite length_cons in *.
    replace (S (length q) - Z.to_nat threshold)%nat
      with (S (length q - Z.to_nat threshold)) by lia.
    reflexivity.
  - rewrite length_cons in *.
    replace (S (length q) - Z.to_nat threshold)%nat with 0%nat by lia.
    reflexivity.
Qed.

Lemma shed_depth {A} (threshold : Z) (q : list A) :
  0 ≤ threshold → Z.of_nat (length (shed threshold q)) ≤ threshold.
Proof.
  intros Ht. rewrite shed_drop, length_drop by assumption. lia.
Qed.

(** ** Runs of the process model *)

Ltac unfold_setters :=
  unfold call, set_in_queue, set_main_thread, set_output, set_out_queue,
    set_event_stopper, set_pool_proc, set_pool, set_pool_joined, set_cancelled,
    set_recording, set_flusher, set_reassembler, add_pool_log,
    new_world_output in *.

Ltac simpl_world :=
  unfold_setters;
  cbn [main_thread output out_queue pool_size event_stopper pool_proc pool
       pool_joined in_cancelled out_cancelled recording flusher reassembler
       pool_log frame_num pick_every_nth_frame in_queue] in *.

(** Split a hypothesis [step ... = Next w'] into the cases of the code. *)
Ltac break_match H :=
  repeat match type of H with
         | context [match ?x with _ => _ end] =>
             lazymatch x with
             | context [match _ with _ => _ end] => fail
             | _ => destruct x eqn:?
             end
         end.

Ltac step_inv H :=
  break_match H; try discriminate H; injection H as <-.

Section ProcessProperties.
Context {M : Worker}.

Lemma run_app (s1 s2 : list Label) (w : World) :
  run (s1 ++ s2) w =
  match run s1 w with
  | Next w' => run s2 w'
  | Blocked => Blocked
  | Raised e => Raised e
  end.
Proof.
  revert w. induction s1 as [|l s1 IH]; intros w; [reflexivity |].
  cbn [run app]. destruct (step l w); auto.
Qed.

(** An invariant of every step holds after every run. *)
Lemma run_invariant (P : World → Prop) :
  (∀ l w w', P w → step l w = Next w' → P w') →
  ∀ schedule w w', P w → run schedule w = Next w' → P w'.
Proof.
  intros Hstep. induction schedule as [|l rest IH]; intros w w' Hw Hrun.
  - cbn in Hrun. injection Hrun as <-. exact Hw.
  - cbn [run] in Hrun. destruct (step l w) as [w1| |] eqn:E; try discriminate.
    eapply IH; [eapply Hstep; eassumption | exact Hrun].
Qed.

(** C4.  For every threshold [T >= 0], one sample of a running Load
    Shedder, with nothing else touching the work queue meanwhile, leaves
    the queue at depth at most [T]: it keeps the entries when the depth is
    already within [T] and otherwise removes entries from the head, the
    oldest, so that the [T] most recently enqueued remain.  With [T = 5]
    and 20 tasks waiting, the last 5 remain. *)
Theorem shedder_restores_threshold (threshold : Z) (w : World) :
  0 ≤ threshold →
  flusher w = SRunning threshold →
  let q := in_queue (output w) in
  ∃ w',
    step LFlusher w = Next w' ∧
    in_queue (output w') = drop (length q - Z.to_nat threshold) q ∧
    Z.of_nat (length (in_queue (output w'))) ≤ threshold ∧
    (Z.of_nat (length q) ≤ threshold → in_queue (output w') = q) ∧
    (threshold = 5 → length q = 20%nat →
     in_queue (output w') = drop 15 q ∧ length (in_queue (output w')) = 5%nat).
Proof.
  intros Ht Hf q. eexists. split.
  - cbn [step]. unfold flusher_step. rewrite Hf. reflexivity.
  - simpl_world. fold q. rewrite (shed_drop _ _ Ht).
    split; [reflexivity |]. split; [| split].
    + rewrite length_drop. lia.
    + intros Hle. replace (length q - Z.to_nat threshold)%nat with 0%nat by lia.
      reflexivity.
    + intros -> Hlen. rewrite length_drop, Hlen. split; reflexivity.
Qed.

Lemma dormant_step (l : Label) (w w' : World) :
  dormant w → step l w = Next w' → dormant w'.
Proof.
  intros (Hp & Hpool & Hf & Hr & Hrec & Hin & Hout & Hmain) Hstep.
  destruct l; cbn [step] in Hstep.
  - unfold main_step in Hstep. destruct (main_thread w) as [|a rest] eqn:Em;
      [discriminate |].
    inversion Hmain as [|? ? Ha Hrest]; subst.
    destruct a; try discriminate Ha; cbn in Hstep; injection Hstep as <-;
      simpl_world; repeat split; assumption.
  - unfold pool_step in Hstep. rewrite Hp in Hstep. discriminate.
  - unfold worker_step in Hstep. rewrite Hpool in Hstep. discriminate.
  - unfold camera_step in Hstep. rewrite Hrec in Hstep. discriminate.
  - unfold flusher_step in Hstep. rewrite Hf in Hstep. discriminate.
  - unfold reassembler_step in Hstep. rewrite Hr in Hstep. discriminate.
Qed.

(** C10.  When opening or parsing the configuration file raises, [main]
    installs the signal handlers, logs the error and returns: its whole
    trace is these two calls, none of which starts a component, and in
    every run from there no pool process, worker, flusher, reassembler or
    recording ever exists and both queues stay empty. *)
Theorem config_error_starts_nothing (file : ConfigFile) (rounds : nat) (e : exn) :
  load_config file = Raise e →
  main file rounds = [InstallSignalHandlers; LogCritical e] ∧
  Forall (λ a, starts_component a = false) (main file rounds) ∧
  ∀ schedule w,
    run schedule (boot file rounds) = Next w →
    pool_proc w = PAbsent ∧ pool w = [] ∧ flusher w = SAbsent ∧
    reassembler w = Absent ∧ recording w = false ∧
    in_queue (output w) = [] ∧ out_queue w = [].
Proof.
  intros Hload.
  assert (Hmain : main file rounds = [InstallSignalHandlers; LogCritical e]).
  { unfold main. rewrite Hload. reflexivity. }
  split; [exact Hmain |]. split.
  - rewrite Hmain. repeat constructor.
  - intros schedule w Hrun.
    assert (Hd : dormant w).
    { eapply (run_invariant dormant); [apply dormant_step | | exact Hrun].
      unfold dormant, boot. cbn. rewrite Hmain. repeat split; repeat constructor. }
    destruct Hd as (? & ? & ? & ? & ? & ? & ? & _). auto 10.
Qed.

End ProcessProperties.

Lemma shedder_restores_threshold_witness :
  let w := mkWorld (M := spec_worker) []
             (mkOutput 4 1 [Task.mk 0 []; Task.mk 1 []; Task.mk 2 []; Task.mk 3 []])
             [] 1 false PWait [] false false false false (SRunning 2) Active [] in
  ∃ w', step LFlusher w = Next w' ∧
        Task.frame_num <$> in_queue (output w') = [2; 3].
Proof.
  intros w. destruct (shedder_restores_threshold 2 w) as (w' & Hstep & Hq & _).
  - lia.
  - reflexivity.
  - exists w'. split; [exact Hstep |]. rewrite Hq. reflexivity.
Defined.

Lemma config_error_starts_nothing_witness :
  main (Unparsable "Expecting value") 7
  = [InstallSignalHandlers; LogCritical (JSONDecodeError "Expecting value")].
Proof.
  apply (config_error_starts_nothing (M := spec_worker)
           (Unparsable "Expecting value") 7 (JSONDecodeError "Expecting value")).
  reflexivity.
Defined.

Section PoolShutdown.
Context {M : Worker}.

Lemma new_outputs_cons (a : Action) (rest : list Action) :
  new_outputs (a :: rest)
  = ((if is_new_output a then 1 else 0) + new_outputs rest)%nat.
Proof. unfold new_outputs. cbn. destruct (is_new_output a); reflexivity. Qed.

Lemma new_outputs_app (l1 l2 : list Action) :
  new_outputs (l1 ++ l2) = (new_outputs l1 + new_outputs l2)%nat.
Proof. unfold new_outputs. rewrite List.filter_app, length_app. reflexivity. Qed.

Lemma new_outputs_wait_loop (rounds : nat) : new_outputs (wait_loop rounds) = 0%nat.
Proof.
  induction rounds as [|k IH]; [reflexivity |].
  cbn [wait_loop]. rewrite new_outputs_app, IH. reflexivity.
Qed.

Lemma new_outputs_main (file : ConfigFile) (rounds : nat) :
  (new_outputs (main file rounds) ≤ 1)%nat.
Proof.
  destruct file as [msg|msg|cfg]; [cbn; lia | cbn; lia |].
  rewrite main_parsed, !new_outputs_app, new_outputs_wait_loop. cbn. lia.
Qed.

Lemma pool_inv_boot (file : ConfigFile) (rounds : nat) :
  pool_inv (boot file rounds).
Proof.
  unfold pool_inv, boot. cbn. repeat split; try discriminate; try congruence.
  apply new_outputs_main.
Qed.

Lemma all_exited_running (ts : list (thread worker_state)) (i : nat) s :
  all_exited ts → ts !! i = Some (Running s) → False.
Proof.
  intros Hall Hi. eapply Forall_lookup_1 in Hall; [| exact Hi]. discriminate.
Qed.

Lemma all_exited_take_insert (ts : list (thread worker_state)) (k i : nat) s t :
  all_exited (take k ts) → ts !! i = Some (Running s) →
  all_exited (take k (<[i := t]> ts)).
Proof.
  intros Hall Hi. destruct (Nat.lt_ge_cases i k) as [Hlt|Hge].
  - exfalso. apply (all_exited_running (take k ts) i s Hall).
    rewrite lookup_take_lt by assumption. exact Hi.
  - rewrite take_insert_ge by assumption. exact Hall.
Qed.

Lemma pool_inv_main_step (w w' : World) :
  pool_inv w → main_step w = Next w' → pool_inv w'.
Proof.
  intros (Hj & Hp & Hone & Hzero) Hstep. unfold main_step in Hstep.
  destruct (main_thread w) as [|a rest] eqn:Em; [discriminate |].
  rewrite new_outputs_cons in Hone, Hzero. unfold pool_inv.
  destruct a; cbn [do_action is_new_output] in *; step_inv Hstep; simpl_world;
    try match goal with E : pool_proc _ = _ |- _ => rewrite E end;
    repeat split; try assumption; try discriminate; try lia;
    try (intros; lia); try (intros E; specialize (Hj E); congruence);
    try (intros; apply Hzero; congruence).
Qed.

Lemma pool_inv_pool_step (w w' : World) :
  pool_inv w → pool_step w = Next w' → pool_inv w'.
Proof.
  intros (Hj & Hp & Hone & Hzero) Hstep. unfold pool_step in Hstep.
  unfold pool_inv.
  destruct (pool_proc w) eqn:Epc; step_inv Hstep; simpl_world;
    rewrite ?Epc; repeat split; try assumption; try discriminate;
    try (intros E; specialize (Hj E); congruence);
    try (intros; apply Hzero; congruence).
  - constructor.
  - erewrite take_S_r by eassumption. apply Forall_app. split; [assumption |].
    repeat constructor.
  - rewrite take_ge in Hp; [assumption |]. apply lookup_ge_None. assumption.
Qed.

Lemma pool_inv_worker_step (i : nat) (c : choice) (w w' : World) :
  pool_inv w → worker_step i c w = Next w' → pool_inv w'.
Proof.
  intros (Hj & Hp & Hone & Hzero) Hstep. unfold worker_step in Hstep.
  unfold pool_inv.
  step_inv Hstep; simpl_world; (split; [assumption |]);
    (split; [| split; assumption]);
    destruct (pool_proc w); try exact I;
    first [ exfalso; eapply all_exited_running; eassumption
          | eapply all_exited_take_insert; eassumption ].
Qed.

Lemma pool_inv_step (l : Label) (w w' : World) :
  pool_inv w → step l w = Next w' → pool_inv w'.
Proof.
  intros Hinv Hstep. destruct l; cbn [step] in Hstep.
  - eapply pool_inv_main_step; eassumption.
  - eapply pool_inv_pool_step; eassumption.
  - eapply pool_inv_worker_step; eassumption.
  - unfold camera_step in Hstep. step_inv Hstep. exact Hinv.
  - unfold flusher_step in Hstep. step_inv Hstep. exact Hinv.
  - unfold reassembler_step in Hstep. step_inv Hstep. exact Hinv.
Qed.

(** Steps of anyone but the main thread leave alone what only [main]
    assigns, and cannot restart a pool process that has returned. *)
Lemma others_frame (l : Label) (w w' : World) :
  step l w = Next w' → l ≠ LMain →
  main_thread w' = main_thread w ∧
  event_stopper w' = event_stopper w ∧
  pool_joined w' = pool_joined w ∧
  in_cancelled w' = in_cancelled w ∧
  out_cancelled w' = out_cancelled w ∧
  flusher w' = flusher w ∧
  reassembler w' = reassembler w ∧
  recording w' = recording w ∧
  (pool_proc w = PExited → pool_proc w' = PExited ∧ pool_log w' = pool_log w).
Proof.
  intros Hstep Hl. destruct l; [congruence | | | | |]; cbn [step] in Hstep;
    unfold pool_step, worker_step, camera_step, flusher_step, reassembler_step in Hstep;
    step_inv Hstep; simpl_world; repeat split; auto; congruence.
Qed.

Lemma stop_returned_step (l : Label) (w w' : World) :
  stop_returned w → step l w = Next w' →
  stop_returned w' ∧ is_worker_label l = false ∧
  out_queue w' `suffix_of` out_queue w.
Proof.
  intros (Hinv & Hev & Hjoined) Hstep.
  pose proof (pool_inv_step _ _ _ Hinv Hstep) as Hinv'.
  destruct Hinv as (Hj & Hp & _ & Hzero).
  specialize (Hj Hjoined). rewrite Hj in Hp, Hzero.
  specialize (Hzero ltac:(discriminate)).
  unfold stop_returned.
  refine (conj (conj Hinv' (conj _ _)) (conj _ _)); destruct l;
    try reflexivity; cbn [step] in Hstep.
  all: try (exfalso; unfold pool_step in Hstep; rewrite Hj in Hstep; discriminate).
  all: try (exfalso; unfold worker_step in Hstep;
            destruct (pool w !! i) as [[s|s|]|] eqn:Ei; try discriminate;
            eapply all_exited_running; eassumption).
  all: try (unfold main_step in Hstep;
            destruct (main_thread w) as [|a rest] eqn:Em; [discriminate |];
            rewrite new_outputs_cons in Hzero;
            destruct a; cbn [do_action is_new_output] in *; try (exfalso; lia);
            step_inv Hstep; simpl_world; solve [auto | reflexivity]).
  all: unfold camera_step, flusher_step, reassembler_step, get_nowait in Hstep;
    step_inv Hstep; simpl_world; try solve [auto | reflexivity].
  apply suffix_cons_r. reflexivity.
Qed.

Lemma stop_returned_run (later : list Label) :
  ∀ w w', stop_returned w → run later w = Next w' →
  stop_returned w' ∧
  Forall (λ l, is_worker_label l = false) later ∧
  out_queue w' `suffix_of` out_queue w.
Proof.
  induction later as [|l later IH]; intros w w' Hw Hrun.
  - cbn in Hrun. injection Hrun as <-.
    split; [exact Hw |]. split; [constructor | reflexivity].
  - cbn [run] in Hrun. destruct (step l w) as [w1| |] eqn:E; try discriminate.
    destruct (stop_returned_step _ _ _ Hw E) as (Hw1 & Hl & Hq).
    destruct (IH _ _ Hw1 Hrun) as (Hw' & Hls & Hq').
    split; [exact Hw' |]. split; [constructor; assumption |].
    etransitivity; eassumption.
Qed.

(** C3.  In every run of the program, once the stop event is set and
    [pool.join()] has returned, the pool process has returned from [run]
    and every worker it spawned has exited; and however the run goes on
    from there, every worker stays exited, no step is a worker's (so none
    pulls from the work queue) and the result queue only loses entries to
    the reassembler: nothing is pushed onto it. *)
Theorem no_worker_after_pool_stop
  (file : ConfigFile) (rounds : nat) (schedule : list Label) (w : World) :
  run schedule (boot file rounds) = Next w →
  event_stopper w = true →
  pool_joined w = true →
  pool_proc w = PExited ∧
  Forall (λ t, t = Exited) (pool w) ∧
  ∀ later w',
    run later w = Next w' →
    Forall (λ l, is_worker_label l = false) later ∧
    Forall (λ t, t = Exited) (pool w') ∧
    out_queue w' `suffix_of` out_queue w.
Proof.
  intros Hrun Hev Hjoined.
  assert (Hinv : pool_inv w).
  { eapply (run_invariant pool_inv);
      [apply pool_inv_step | apply pool_inv_boot | exact Hrun]. }
  assert (Hexit : ∀ v, stop_returned v → pool_proc v = PExited ∧ all_exited (pool v)).
  { intros v ((Hj & Hp & _) & _ & Hjv). specialize (Hj Hjv).
    rewrite Hj in Hp. auto. }
  assert (Hw : stop_returned w) by (repeat split; assumption || apply Hinv).
  destruct (Hexit w Hw) as [Hpc Hall]. split; [exact Hpc |]. split; [exact Hall |].
  intros later w' Hlater.
  destruct (stop_returned_run later w w' Hw Hlater) as (Hw' & Hls & Hq).
  split; [exact Hls |]. split; [apply (Hexit w' Hw') | exact Hq].
Qed.

End PoolShutdown.

Section ServiceShutdown.
Context {M : Worker}.

Lemma flusher_after_app (l1 l2 : list Action) (f : service) :
  flusher_after (l1 ++ l2) f = flusher_after l2 (flusher_after l1 f).
Proof.
  revert f. induction l1 as [|a l1 IH]; intros f; [reflexivity |].
  destruct a; cbn; apply IH.
Qed.

Lemma flusher_after_main (file : ConfigFile) (rounds : nat) :
  flusher_running (flusher_after (main file rounds) SAbsent) = false.
Proof.
  destruct file as [msg|msg|cfg]; [reflexivity | reflexivity |].
  rewrite main_parsed, !flusher_after_app. reflexivity.
Qed.

Lemma flusher_inv_step (l : Label) (w w' : World) :
  flusher_inv w → step l w = Next w' → flusher_inv w'.
Proof.
  unfold flusher_inv. intros Hinv Hstep. destruct l.
  2-6: destruct (others_frame _ _ _ Hstep ltac:(discriminate))
         as (-> & _ & _ & _ & _ & -> & _); exact Hinv.
  cbn [step] in Hstep. unfold main_step in Hstep.
  destruct (main_thread w) as [|a rest] eqn:Em; [discriminate |].
  destruct a; cbn [do_action flusher_after] in *; step_inv Hstep; simpl_world;
    exact Hinv.
Qed.

Lemma main_done_step (l : Label) (w w' : World) :
  main_thread w = [] → flusher_running (flusher w) = false →
  step l w = Next w' →
  main_thread w' = [] ∧ flusher_running (flusher w') = false ∧
  is_flusher_label l = false.
Proof.
  intros Hmain Hf Hstep. destruct l.
  - cbn [step] in Hstep. unfold main_step in Hstep. rewrite Hmain in Hstep.
    discriminate.
  - destruct (others_frame _ _ _ Hstep ltac:(discriminate))
      as (-> & _ & _ & _ & _ & -> & _). auto.
  - destruct (others_frame _ _ _ Hstep ltac:(discriminate))
      as (-> & _ & _ & _ & _ & -> & _). auto.
  - destruct (others_frame _ _ _ Hstep ltac:(discriminate))
      as (-> & _ & _ & _ & _ & -> & _). auto.
  - exfalso. cbn [step] in Hstep. unfold flusher_step in Hstep.
    destruct (flusher w); discriminate.
  - destruct (others_frame _ _ _ Hstep ltac:(discriminate))
      as (-> & _ & _ & _ & _ & -> & _). auto.
Qed.

(** C7, amended.  Once [main] has finished its teardown, whose last call
    is [flusher.stop()], the Load Shedder is not running and no later step
    of any run is a shedder's: it discards nothing from then on. *)
Theorem no_shedding_after_teardown
  (file : ConfigFile) (rounds : nat) (schedule : list Label) (w : World) :
  run schedule (boot file rounds) = Next w →
  main_thread w = [] →
  (∀ threshold, flusher w ≠ SRunning threshold) ∧
  ∀ later w',
    run later w = Next w' →
    Forall (λ l, is_flusher_label l = false) later ∧
    ∀ threshold, flusher w' ≠ SRunning threshold.
Proof.
  intros Hrun Hmain.
  assert (Hinv : flusher_inv w).
  { apply (run_invariant flusher_inv flusher_inv_step schedule (boot file rounds));
      [exact (flusher_after_main file rounds) | exact Hrun]. }
  unfold flusher_inv in Hinv. rewrite Hmain in Hinv. cbn in Hinv.
  assert (Hnot : ∀ f, flusher_running f = false → ∀ threshold, f ≠ SRunning threshold).
  { intros f Hf threshold ->. discriminate. }
  split; [apply Hnot, Hinv |].
  clear Hrun. intros later. revert w Hmain Hinv.
  induction later as [|l later IH]; intros w Hmain Hinv w' Hlater.
  - cbn in Hlater. injection Hlater as <-. split; [constructor | apply Hnot, Hinv].
  - cbn [run] in Hlater. destruct (step l w) as [w1| |] eqn:E; try discriminate.
    destruct (main_done_step _ _ _ Hmain Hinv E) as (Hmain1 & Hf1 & Hl).
    destruct (IH w1 Hmain1 Hf1 w' Hlater) as [Hls Hf'].
    split; [constructor; assumption | exact Hf'].
Qed.

Lemma stop_progress_step (l : Label) (w w' : World) :
  stop_progress w → step l w = Next w' → stop_progress w'.
Proof.
  unfold stop_progress, pool_stopped. intros Hprog Hstep.
  destruct l.
  2-6: destruct (others_frame _ _ _ Hstep ltac:(discriminate))
         as (-> & -> & -> & -> & -> & _ & _ & _ & Hpc);
       intuition.
  cbn [step] in Hstep. unfold main_step in Hstep.
  destruct Hprog as [Em | [[Em Hev] | [[Em (Hev & Hpc & Hj)]
                   | [[Em ((Hev & Hpc & Hj) & Hin)] | [Em _]]]]];
    rewrite Em in Hstep; cbn in Hstep; step_inv Hstep; simpl_world.
  - right; left. auto.
  - right; right; left. auto.
  - right; right; right; left. auto.
  - right; right; right; right. auto 10.
Qed.

(** C8.  Stopping is idempotent.  Setting the stop event a second time
    changes nothing.  And for every state in which
    [DistributeFramesAndInfer.stop] is called: if the call completes,
    whatever the other processes did meanwhile, then a second call from
    the state it ended in runs through on its own, without waiting and
    without raising, and ends in that same state: the event stays set,
    the pool process stays joined, nothing is logged or cancelled anew. *)
Theorem stop_idempotent (u w w' : World) (schedule : list Label) :
  run schedule (call output_stop w) = Next w' →
  main_thread w' = [] →
  run [LMain; LMain; LMain; LMain] (call output_stop w') = Next w' ∧
  ∃ v, run [LMain] (call pool_stop u) = Next v ∧
       run [LMain] (call pool_stop v) = Next v.
Proof.
  intros Hrun Hdone.
  assert (Hprog : stop_progress w').
  { eapply (run_invariant stop_progress);
      [apply stop_progress_step | | exact Hrun]. left. reflexivity. }
  destruct Hprog as [Em | [[Em _] | [[Em _] | [[Em _] | [_ Hfin]]]]];
    try (rewrite Hdone in Em; discriminate).
  destruct Hfin as ((Hev & Hpc & Hj) & Hin & Hout).
  split.
  - destruct w'. simpl_world. subst. reflexivity.
  - eexists. split; reflexivity.
Qed.

End ServiceShutdown.


(** C7, as the specification words it, fails: after [pool.stop()] has set
    the stop event and before [pool.join()] has returned, the flusher is
    still running; with frames 1 and 2 waiting and threshold 1 its next
    sample discards frame 1. *)
Lemma shedder_discards_during_pool_stop :
  run run_until_pool_stop (boot (Parsed sample_config) 0) = Next at_pool_stop ∧
  event_stopper at_pool_stop = true ∧
  pool_joined at_pool_stop = false ∧
  main_thread at_pool_stop
    = [PoolJoin; CancelJoinThread InQueue; CancelJoinThread OutQueue;
       CameraClose; ReassemblerStop; FlusherStop] ∧
  flusher at_pool_stop = SRunning 1 ∧
  Task.frame_num <$> in_queue (output at_pool_stop) = [1; 2] ∧
  ∃ w', step LFlusher at_pool_stop = Next w' ∧
        Task.frame_num <$> in_queue (output w') = [2].
Proof.
  split; [vm_compute; reflexivity |].
  do 5 (split; [reflexivity |]).
  eexists. split; reflexivity.
Qed.

Lemma no_worker_after_pool_stop_witness :
  run run_until_pool_joined (boot (Parsed sample_config) 0) = Next at_pool_joined ∧
  pool_proc at_pool_joined = PExited ∧
  Forall (λ t, t = Exited) (pool at_pool_joined) ∧
  length (pool at_pool_joined) = 2%nat.
Proof.
  assert (Hrun : run run_until_pool_joined (boot (Parsed sample_config) 0)
                 = Next at_pool_joined) by (vm_compute; reflexivity).
  split; [exact Hrun |].
  destruct (no_worker_after_pool_stop (M := spec_worker)
              (Parsed sample_config) 0 run_until_pool_joined at_pool_joined Hrun)
    as (Hpc & Hall & _); [reflexivity | reflexivity |].
  split; [exact Hpc |]. split; [exact Hall | reflexivity].
Defined.

Lemma no_shedding_after_teardown_witness :
  run run_until_exit (boot (Parsed sample_config) 0) = Next at_exit ∧
  main_thread at_exit = [] ∧
  ∀ threshold, flusher at_exit ≠ SRunning threshold.
Proof.
  assert (Hrun : run run_until_exit (boot (Parsed sample_config) 0) = Next at_exit)
    by (vm_compute; reflexivity).
  split; [exact Hrun |]. split; [reflexivity |].
  apply (no_shedding_after_teardown (M := spec_worker)
           (Parsed sample_config) 0 run_until_exit at_exit Hrun).
  reflexivity.
Defined.

Lemma stop_idempotent_witness :
  run first_stop (call output_stop waiting_pool) = Next after_first_stop ∧
  run [LMain; LMain; LMain; LMain] (call output_stop after_first_stop)
    = Next after_first_stop ∧
  pool_log after_first_stop
    = ["spawning workers on separate process"%string;
       "stoppping workers on separate process"%string].
Proof.
  assert (Hrun : run first_stop (call output_stop waiting_pool) = Next after_first_stop)
    by (vm_compute; reflexivity).
  split; [exact Hrun |]. split; [| reflexivity].
  apply (stop_idempotent (M := spec_worker) waiting_pool waiting_pool
           after_first_stop first_stop Hrun).
  reflexivity.
Defined.

(** * Further properties of the code *)

(** ** The segmenter on arbitrary input *)

Lemma writes_app (l1 l2 : list bytes) (self : DistributeFramesAndInfer) :
  writes self (l1 ++ l2) = self' ← writes self l1; writes self' l2.
Proof.
  revert self. induction l1 as [|buf l1 IH]; intros self; [reflexivity |].
  cbn [writes app]. destruct (write self buf) as [s|e]; cbn; [apply IH | reflexivity].
Qed.

Lemma write_zero_soi (self : DistributeFramesAndInfer) (buf : bytes) :
  pick_every_nth_frame self = 0 → startswith_soi buf = true →
  write self buf = Raise ZeroDivisionError.
Proof. intros Hz Hsoi. unfold write, py_mod. rewrite Hsoi, Hz. reflexivity. Qed.

(** X1.  With a decimation factor of zero, feeding chunks raises
    [ZeroDivisionError] exactly when one of them begins a frame: the first
    such chunk raises, with nothing counted or enqueued before it; a stream
    without any frame start is accepted and leaves the object as it was. *)
Theorem zero_factor_raises (self : DistributeFramesAndInfer) (chunks : list bytes) :
  pick_every_nth_frame self = 0 →
  (Exists is_soi chunks → writes self chunks = Raise ZeroDivisionError) ∧
  (¬ Exists is_soi chunks → writes self chunks = Ok self) ∧
  (∀ buf, is_soi buf → after_write self buf = self).
Proof.
  intros Hz. split; [| split].
  - induction chunks as [|buf chunks IH]; intros Hex; [inversion Hex |].
    cbn [writes]. destruct (startswith_soi buf) eqn:Hsoi.
    + rewrite (write_zero_soi _ _ Hz Hsoi). reflexivity.
    + rewrite (write_other _ _ Hsoi). cbn. apply IH.
      inversion Hex as [? ? H|? ? H]; subst; [| exact H].
      unfold is_soi in H. congruence.
  - induction chunks as [|buf chunks IH]; intros Hnex; [reflexivity |].
    cbn [writes]. destruct (startswith_soi buf) eqn:Hsoi.
    + exfalso. apply Hnex. left. exact Hsoi.
    + rewrite (write_other _ _ Hsoi). cbn. apply IH.
      intros H. apply Hnex. right. exact H.
  - intros buf Hsoi. unfold after_write. rewrite (write_zero_soi _ _ Hz Hsoi).
    reflexivity.
Qed.

Lemma zero_factor_raises_witness :
  writes (new_output 0) [[x00; x01]; [xff; xd8; x02]; [x03]] = Raise ZeroDivisionError.
Proof.
  apply (zero_factor_raises (new_output 0) [[x00; x01]; [xff; xd8; x02]; [x03]]).
  - reflexivity.
  - right. left. reflexivity.
Defined.

Lemma mod_opp_zero (a n : Z) : (a mod (- n) =? 0) = (a mod n =? 0).
Proof.
  destruct (Z.eq_dec n 0) as [->|Hn]; [reflexivity |].
  destruct (Z.eqb_spec (a mod n) 0) as [E|E].
  - apply Z.eqb_eq. apply Z.mod_opp_r_z; assumption.
  - apply Z.eqb_neq. intros E'. apply E.
    apply Z.mod_divide; [assumption |]. apply Z.divide_opp_l.
    apply Z.mod_divide; [lia | assumption].
Qed.

Lemma write_opp_factor (nth : Z) (self : DistributeFramesAndInfer) (buf : bytes) :
  write (with_factor (- nth) self) buf
  = result_map (with_factor (- nth)) (write (with_factor nth self) buf).
Proof.
  unfold write, py_mod, with_factor. cbn.
  destruct (startswith_soi buf); [| reflexivity].
  destruct (Z.eqb_spec nth 0) as [->|Hn]; [reflexivity |].
  destruct (Z.eqb_spec (- nth) 0) as [E|_]; [lia |]. cbn.
  rewrite mod_opp_zero. reflexivity.
Qed.

(** X2.  Only the absolute value of the decimation factor matters: with
    [-N] the same chunks raise the same exception or leave the same counter
    and the same work queue as with [N] (Python's [%] by a negative number
    is zero on the same dividends). *)
Theorem factor_sign_irrelevant (nth : Z) (chunks : list bytes)
  (self : DistributeFramesAndInfer) :
  writes (with_factor (- nth) self) chunks
  = result_map (with_factor (- nth)) (writes (with_factor nth self) chunks).
Proof.
  revert self. induction chunks as [|buf chunks IH]; intros self; [reflexivity |].
  cbn [writes]. rewrite write_opp_factor.
  destruct (write (with_factor nth self) buf) as [s|e] eqn:E; [| reflexivity].
  cbn. assert (Hs : pick_every_nth_frame s = nth).
  { unfold write in E. destruct (startswith_soi buf).
    - unfold py_mod in E. cbn in E. destruct (nth =? 0); [discriminate |].
      cbn in E. injection E as <-. reflexivity.
    - injection E as <-. reflexivity. }
  specialize (IH s). unfold with_factor in IH at 3.
  rewrite <- Hs in IH at 3. destruct s; cbn in *. exact IH.
Qed.

Lemma writes_filter (self : DistributeFramesAndInfer) (chunks : list bytes) :
  writes self chunks = writes self (filter is_soi chunks).
Proof.
  revert self. induction chunks as [|buf chunks IH]; intros self; [reflexivity |].
  rewrite filter_cons. destruct (decide (is_soi buf)) as [Hsoi|Hsoi].
  - cbn [writes]. destruct (write self buf); cbn; [apply IH | reflexivity].
  - cbn [writes]. unfold is_soi in Hsoi. apply not_true_is_false in Hsoi.
    rewrite (write_other _ _ Hsoi). cbn. apply IH.
Qed.

(** X3.  A stream's chunks that do not begin a frame have no effect at all:
    feeding a stream gives the same result, or the same exception, as
    feeding only its frame-start chunks, and feeding it in two batches gives
    the same as feeding it in one. *)
Theorem only_frame_starts_matter (self : DistributeFramesAndInfer)
  (chunks more : list bytes) :
  writes self chunks = writes self (filter is_soi chunks) ∧
  writes self (chunks ++ more) = self' ← writes self chunks; writes self' more.
Proof. split; [apply writes_filter | apply writes_app]. Qed.

Lemma ceil_step (k n : Z) :
  0 ≤ k → 1 ≤ n →
  (k + 1 + n - 1) / n = (k + n - 1) / n + (if decide (k mod n = 0) then 1 else 0).
Proof.
  intros Hk Hn.
  pose proof (Z.div_mod k n ltac:(lia)) as Hdm.
  pose proof (Z.mod_pos_bound k n ltac:(lia)) as Hr.
  set (q := k / n) in *. set (r := k mod n) in *.
  destruct (decide (r = 0)) as [E|E].
  - rewrite <- (Z.div_unique (k + 1 + n - 1) n (q + 1) 0) by lia.
    rewrite <- (Z.div_unique (k + n - 1) n q (n - 1)) by lia. reflexivity.
  - rewrite <- (Z.div_unique (k + 1 + n - 1) n (q + 1) r) by lia.
    rewrite <- (Z.div_unique (k + n - 1) n (q + 1) (r - 1)) by lia. lia.
Qed.

Lemma multiples_below (n : Z) (k : nat) :
  1 ≤ n →
  Z.of_nat (length (filter (λ i, i mod n = 0) (seqZ 0 (Z.of_nat k))))
  = (Z.of_nat k + n - 1) / n.
Proof.
  intros Hn. induction k as [|k IH].
  - cbn. symmetry. apply Z.div_small. lia.
  - rewrite seqZ_S, list.filter_app, length_app, Nat2Z.inj_add, IH.
    rewrite Nat2Z.inj_succ. unfold Z.succ. rewrite ceil_step by lia.
    f_equal. rewrite filter_cons, filter_nil, Z.add_0_l.
    destruct (decide (Z.of_nat k mod n = 0)); reflexivity.
Qed.

(** X4.  With a decimation factor [N >= 1], a stream with [F] frame-start
    chunks, whatever else it contains, puts exactly [ceil (F / N)] tasks on
    the work queue. *)
Theorem kept_frame_count (nth : Z) (chunks : list bytes) :
  1 ≤ nth →
  ∃ self,
    writes (new_output nth) chunks = Ok self ∧
    Z.of_nat (length (in_queue self))
    = (Z.of_nat (length (filter is_soi chunks)) + nth - 1) / nth.
Proof.
  intros Hn. eexists. split.
  - rewrite writes_filter. apply writes_soi; [cbn; lia |].
    apply Forall_forall. intros buf Hin. apply list_elem_of_In in Hin.
    apply list_elem_of_filter in Hin as [H _]. exact H.
  - cbn [in_queue new_output frame_num pick_every_nth_frame app].
    rewrite <- (length_fmap Task.frame_num), picked_frame_nums.
    apply multiples_below. exact Hn.
Qed.

Lemma kept_frame_count_witness :
  ∃ self,
    writes (new_output 3) [frame x00; [x09]; frame x01; frame x02; frame x03] = Ok self ∧
    Z.of_nat (length (in_queue self)) = 2.
Proof.
  destruct (kept_frame_count 3 [frame x00; [x09]; frame x01; frame x02; frame x03])
    as (self & Hrun & Hlen); [lia |].
  exists self. split; [exact Hrun | exact Hlen].
Defined.

Lemma write_factor (self self' : DistributeFramesAndInfer) (buf : bytes) :
  write self buf = Ok self' → pick_every_nth_frame self' = pick_every_nth_frame self.
Proof.
  unfold write. destruct (startswith_soi buf).
  - unfold py_mod. destruct (_ =? 0); [discriminate |].
    cbn. intros H. injection H as <-. reflexivity.
  - intros H. injection H as <-. reflexivity.
Qed.

Lemma writes_factor (chunks : list bytes) :
  ∀ self self' : DistributeFramesAndInfer,
  writes self chunks = Ok self' → pick_every_nth_frame self' = pick_every_nth_frame self.
Proof.
  induction chunks as [|buf chunks IH]; intros self self' Hrun.
  - cbn in Hrun. injection Hrun as <-. reflexivity.
  - cbn [writes] in Hrun. destruct (write self buf) as [s|e] eqn:Hw; [| discriminate].
    cbn in Hrun. rewrite (IH _ _ Hrun). apply (write_factor _ _ _ Hw).
Qed.

Lemma task_sound_mono (seen seen' : list bytes) (self self' : DistributeFramesAndInfer)
  (t : Task.t) :
  seen ⊆ seen' → frame_num self ≤ frame_num self' →
  pick_every_nth_frame self' = pick_every_nth_frame self →
  task_sound seen self t → task_sound seen' self' t.
Proof.
  intros Hsub Hle Hn (Hin & Hsoi & Hrange & Hmod).
  unfold task_sound. rewrite Hn. repeat split; auto; lia.
Qed.

Lemma write_sound (seen : list bytes) (self self' : DistributeFramesAndInfer)
  (buf : bytes) :
  0 ≤ frame_num self →
  Forall (task_sound seen self) (in_queue self) →
  write self buf = Ok self' →
  0 ≤ frame_num self' ∧
  Forall (task_sound (seen ++ [buf]) self') (in_queue self').
Proof.
  intros Hpos Hall Hw.
  pose proof (write_factor _ _ _ Hw) as Hn.
  destruct (frame_num_after_write self buf) as [Hf|Hf];
    unfold after_write in Hf; rewrite Hw in Hf.
  all: assert (Hold : Forall (task_sound (seen ++ [buf]) self') (in_queue self))
    by (eapply list.Forall_impl; [exact Hall |]; intros t Ht;
        eapply task_sound_mono; [| | exact Hn | exact Ht];
        [intros x Hx; apply elem_of_app; left; exact Hx | lia]).
  all: split; [lia |].
  all: unfold write in Hw; destruct (startswith_soi buf) eqn:Hsoi;
    [| injection Hw as <-; exact Hold].
  all: unfold py_mod in Hw;
    destruct (Z.eqb_spec (pick_every_nth_frame self) 0) as [|Hnz]; [discriminate |];
    cbn in Hw; injection Hw as <-; cbn [in_queue frame_num pick_every_nth_frame] in *.
  all: destruct (Z.eqb_spec (frame_num self mod pick_every_nth_frame self) 0) as [E|E];
    [| exact Hold].
  all: unfold put; apply Forall_app; split; [exact Hold |].
  all: constructor; [| constructor]; unfold task_sound; cbn;
    repeat split; auto; try lia;
    apply elem_of_app; right; apply list_elem_of_singleton; reflexivity.
Qed.

Lemma writes_sound (chunks : list bytes) :
  ∀ (seen : list bytes) (self self' : DistributeFramesAndInfer),
  0 ≤ frame_num self →
  Forall (task_sound seen self) (in_queue self) →
  writes self chunks = Ok self' →
  0 ≤ frame_num self' ∧
  Forall (task_sound (seen ++ chunks) self') (in_queue self').
Proof.
  induction chunks as [|buf chunks IH]; intros seen self self' Hpos Hall Hrun.
  - cbn in Hrun. injection Hrun as <-. rewrite app_nil_r. auto.
  - cbn [writes] in Hrun. destruct (write self buf) as [s|e] eqn:Hw; [| discriminate].
    cbn in Hrun. destruct (write_sound _ _ _ _ Hpos Hall Hw) as [Hpos1 Hall1].
    destruct (IH _ _ _ Hpos1 Hall1 Hrun) as [Hpos' Hall'].
    split; [exact Hpos' |]. rewrite <- app_assoc in Hall'. exact Hall'.
Qed.

(** X5.  Whatever the stream and the decimation factor, every task that
    [write] has put on the work queue carries one whole chunk of the stream
    as its payload, a chunk that begins with the frame-start marker; its
    sequence number is a multiple of the decimation factor, at least 0 and
    below the counter. *)
Theorem queued_tasks_are_frame_starts (nth : Z) (chunks : list bytes)
  (self : DistributeFramesAndInfer) :
  writes (new_output nth) chunks = Ok self →
  pick_every_nth_frame self = nth ∧
  Forall (λ t, Task.jpeg t ∈ chunks ∧
               startswith_soi (Task.jpeg t) = true ∧
               0 ≤ Task.frame_num t < frame_num self ∧
               Task.frame_num t mod nth = 0) (in_queue self).
Proof.
  intros Hrun. pose proof (writes_factor _ _ _ Hrun) as Hn. cbn in Hn.
  split; [exact Hn |].
  destruct (writes_sound chunks [] (new_output nth) self) as [_ Hall];
    [cbn; lia | constructor | exact Hrun |].
  cbn [app] in Hall. unfold task_sound in Hall. rewrite Hn in Hall. exact Hall.
Qed.

Lemma queued_tasks_are_frame_starts_witness :
  ∃ self,
    writes (new_output 2) [frame x00; [x09]; frame x01; frame x02] = Ok self ∧
    Forall (λ t, startswith_soi (Task.jpeg t) = true) (in_queue self).
Proof.
  eexists. split; [reflexivity |].
  destruct (queued_tasks_are_frame_starts 2 [frame x00; [x09]; frame x01; frame x02] _
              eq_refl) as [_ Hall].
  eapply list.Forall_impl; [exact Hall |]. intros t (_ & H & _). exact H.
Defined.

(** ** Start and stop calls in [main] *)









(** ** Invariants of the running system *)

Section SystemProperties.
Context {M : Worker}.

Lemma main_ok_wait_loop (cfg : Config) (st : pool_status) (ev : bool)
  (rounds : nat) (rest : list Action) :
  main_ok cfg st ev (wait_loop rounds ++ rest) = main_ok cfg st ev rest.
Proof.
  induction rounds as [|k IH]; [reflexivity |]. cbn. exact IH.
Qed.

Lemma main_ok_main (cfg : Config) (rounds : nat) :
  main_ok cfg NoPool false (main (Parsed cfg) rounds) = true.
Proof.
  rewrite main_parsed. cbn. rewrite !Z.eqb_refl. cbn.
  rewrite main_ok_wait_loop. reflexivity.
Qed.

Lemma config_inv_boot (cfg : Config) (rounds : nat) :
  config_inv cfg (boot (Parsed cfg) rounds).
Proof.
  unfold config_inv, boot. cbn [pool_proc event_stopper main_thread recording flusher
                                status_of].
  split; [apply main_ok_main |]. repeat split; try congruence; discriminate.
Qed.

Lemma pool_shape_boot (file : ConfigFile) (rounds : nat) :
  pool_shape (boot file rounds).
Proof. reflexivity. Qed.

Lemma status_started (pc : pool_pc) :
  status_of pc = Started → pc ≠ PAbsent ∧ pc ≠ PNew.
Proof. destruct pc; cbn; intros H; try discriminate; split; discriminate. Qed.

Lemma config_inv_main_step (cfg : Config) (w w' : World) :
  config_inv cfg w → main_step w = Next w' → config_inv cfg w'.
Proof.
  intros (Hok & Hcfg & Hrec & Hfl) Hstep. unfold main_step in Hstep.
  destruct (main_thread w) as [|a rest] eqn:Em; [discriminate |].
  unfold config_inv.
  destruct a; cbn [do_action main_ok] in *; step_inv Hstep; simpl_world;
    repeat match goal with
           | E : pool_proc _ = _ |- _ => rewrite E in *; clear E
           | H : context [status_of _] |- _ => progress cbn [status_of] in H
           | H : _ && _ = true |- _ => apply andb_prop in H as [? ?]
           | H : (_ =? _) = true |- _ => apply Z.eqb_eq in H
           | H : match status_of ?pc with _ => _ end = true |- _ =>
               destruct pc; cbn [status_of] in H; try discriminate H
           end;
    cbn [status_of]; repeat split; auto; try congruence; try discriminate;
    try (intros; apply Hcfg; congruence);
    try (intros; apply Hrec; congruence).
Qed.

Lemma config_inv_others (cfg : Config) (l : Label) (w w' : World) :
  config_inv cfg w → step l w = Next w' → l ≠ LMain → config_inv cfg w'.
Proof.
  intros (Hok & Hcfg & Hrec & Hfl) Hstep Hl.
  destruct (others_frame _ _ _ Hstep Hl)
    as (Hmain & Hev & _ & _ & _ & Hflu & _ & Hrecw & _).
  assert (Hpc : status_of (pool_proc w') = status_of (pool_proc w) ∧
                pool_size w' = pool_size w ∧
                pick_every_nth_frame (output w') = pick_every_nth_frame (output w)).
  { destruct l; [congruence | | | | |]; cbn [step] in Hstep;
      unfold pool_step, worker_step, camera_step, flusher_step, reassembler_step in Hstep.
    5: { step_inv Hstep; simpl_world; auto. }
    4: { step_inv Hstep; simpl_world; auto. }
    3: { destruct (recording w); [| discriminate].
         destruct (write (output w) buf) as [o|e] eqn:Hw; [| discriminate].
         injection Hstep as <-. simpl_world.
         rewrite (write_factor _ _ _ Hw). auto. }
    2: { step_inv Hstep; simpl_world; auto. }
    destruct (pool_proc w) eqn:Epc; step_inv Hstep; simpl_world;
      rewrite ?Epc; auto. }
  destruct Hpc as (Hst & Hsz & Hnth).
  unfold config_inv. rewrite Hmain, Hev, Hst, Hsz, Hnth, Hflu, Hrecw.
  assert (Habs : pool_proc w' ≠ PAbsent ↔ pool_proc w ≠ PAbsent).
  { split; intros H E; rewrite E in Hst;
      [destruct (pool_proc w') | destruct (pool_proc w)]; cbn in Hst; congruence. }
  split; [exact Hok |]. split; [| split; [| exact Hfl]].
  - intros H. apply Hcfg, Habs, H.
  - intros H. apply Habs, Hrec, H.
Qed.

Lemma config_inv_step (cfg : Config) (l : Label) (w w' : World) :
  config_inv cfg w → step l w = Next w' → config_inv cfg w'.
Proof.
  intros Hinv Hstep.
  destruct l; [eapply config_inv_main_step; eassumption | ..];
    (eapply config_inv_others; [eassumption | eassumption | discriminate]).
Qed.

Lemma pool_shape_main_step (w w' : World) :
  pool_shape w → main_step w = Next w' → pool_shape w'.
Proof.
  intros Hshape Hstep. unfold main_step in Hstep.
  destruct (main_thread w) as [|a rest] eqn:Em; [discriminate |].
  unfold pool_shape in *.
  destruct a; cbn [do_action] in *; step_inv Hstep; simpl_world;
    try exact Hshape; try reflexivity;
    try match goal with E : pool_proc _ = _ |- _ => rewrite E in *; exact Hshape end.
  destruct (pool_proc w); intuition.
Qed.

Lemma length_spawn (size : Z) : length (spawn size) = Z.to_nat size.
Proof. unfold spawn. rewrite length_fmap, length_seq. reflexivity. Qed.

Lemma spawn_created (size : Z) (i : nat) (t : thread worker_state) :
  spawn size !! i = Some t → is_created t = true.
Proof.
  unfold spawn. rewrite list_lookup_fmap. destruct (seq 0 _ !! i); cbn; [| discriminate].
  intros H. injection H as <-. reflexivity.
Qed.

Lemma pool_shape_pool_step (w w' : World) :
  pool_shape w → pool_step w = Next w' → pool_shape w'.
Proof.
  intros Hshape Hstep. unfold pool_step in Hstep. unfold pool_shape in *.
  destruct (pool_proc w) as [| | |k| |k|] eqn:Epc; try discriminate.
  - (* spawn *)
    injection Hstep as <-. simpl_world.
    split; [apply length_spawn |]. split.
    + intros j u _. apply spawn_created.
    + intros j u Hj. lia.
  - destruct Hshape as (Hlen & Hge & Hlt).
    destruct (pool w !! k) as [[s|s|]|] eqn:Ek; try discriminate;
      injection Hstep as <-; simpl_world.
    + (* start worker k *)
      rewrite length_insert. split; [exact Hlen |]. split.
      * intros j u Hj Hlook. rewrite list_lookup_insert_ne in Hlook by lia.
        apply (Hge j u); [lia | exact Hlook].
      * intros j u Hj Hlook. destruct (decide (j = k)) as [->|Hne].
        -- rewrite list_lookup_insert_eq in Hlook
             by (eapply lookup_lt_Some; eassumption).
           injection Hlook as <-. reflexivity.
        -- rewrite list_lookup_insert_ne in Hlook by lia.
           apply (Hlt j u); [lia | exact Hlook].
    + (* all started *)
      split; [exact Hlen |].
      apply Forall_lookup. intros j u Hlook. apply (Hlt j u); [| exact Hlook].
      apply lookup_ge_None in Ek. apply lookup_lt_Some in Hlook. lia.
  - (* the event is seen, or not yet *)
    destruct Hshape as (Hlen & Hall).
    destruct (event_stopper w) eqn:Hev; injection Hstep as <-; simpl_world;
      rewrite ?Epc; auto.
  - destruct (pool w !! k) as [[s|s|]|] eqn:Ek; try discriminate;
      injection Hstep as <-; simpl_world; exact Hshape.
Qed.

Lemma pool_shape_worker_step (i : nat) (c : choice) (w w' : World) :
  pool_shape w → worker_step i c w = Next w' → pool_shape w'.
Proof.
  intros Hshape Hstep. unfold worker_step in Hstep.
  destruct (pool w !! i) as [[s|s|]|] eqn:Ei; try discriminate.
  assert (Hupd : ∀ t, is_created t = false →
            pool_shape (set_pool (<[i := t]> (pool w)) w)).
  { intros t Ht. unfold pool_shape in *. simpl_world.
    destruct (pool_proc w) eqn:Epc;
      try (rewrite Hshape in Ei; discriminate Ei).
    - destruct Hshape as (Hlen & Hge & Hlt). rewrite length_insert.
      split; [exact Hlen |].
      assert (Hik : (i < k)%nat).
      { destruct (Nat.lt_ge_cases i k) as [H|H]; [exact H |].
        specialize (Hge i _ H Ei). discriminate. }
      split.
      + intros j u Hj Hlook. rewrite list_lookup_insert_ne in Hlook by lia.
        apply (Hge j u Hj Hlook).
      + intros j u Hj Hlook. destruct (decide (j = i)) as [->|Hne].
        * rewrite list_lookup_insert_eq in Hlook
            by (eapply lookup_lt_Some; eassumption).
          injection Hlook as <-. exact Ht.
        * rewrite list_lookup_insert_ne in Hlook by lia. apply (Hlt j u Hj Hlook).
    - destruct Hshape as (Hlen & Hall). rewrite length_insert.
      split; [exact Hlen |]. apply Forall_insert; assumption.
    - destruct Hshape as (Hlen & Hall & Hev). rewrite length_insert.
      split; [exact Hlen |]. split; [apply Forall_insert; assumption | exact Hev].
    - destruct Hshape as (Hlen & Hall & Hev). rewrite length_insert.
      split; [exact Hlen |]. split; [apply Forall_insert; assumption | exact Hev]. }
  destruct (worker_run _ _ _ _ _) as [s' inq outq|]; injection Hstep as <-.
  - specialize (Hupd (Running s') eq_refl). unfold pool_shape in *. simpl_world.
    exact Hupd.
  - apply (Hupd Exited eq_refl).
Qed.

Lemma pool_shape_step (l : Label) (w w' : World) :
  pool_shape w → step l w = Next w' → pool_shape w'.
Proof.
  intros Hshape Hstep. destruct l; cbn [step] in Hstep.
  - eapply pool_shape_main_step; eassumption.
  - eapply pool_shape_pool_step; eassumption.
  - eapply pool_shape_worker_step; eassumption.
  - unfold camera_step in Hstep. step_inv Hstep. exact Hshape.
  - unfold flusher_step in Hstep. step_inv Hstep. exact Hshape.
  - unfold reassembler_step in Hstep. step_inv Hstep. exact Hshape.
Qed.

Lemma reachable_invariants (cfg : Config) (rounds : nat) (schedule : list Label)
  (w : World) :
  run schedule (boot (Parsed cfg) rounds) = Next w →
  config_inv cfg w ∧ pool_shape w ∧ pool_inv w.
Proof.
  intros Hrun. split; [| split].
  - apply (run_invariant (config_inv cfg) (config_inv_step cfg) schedule
             (boot (Parsed cfg) rounds)); [apply config_inv_boot | exact Hrun].
  - apply (run_invariant pool_shape pool_shape_step schedule
             (boot (Parsed cfg) rounds)); [apply pool_shape_boot | exact Hrun].
  - apply (run_invariant pool_inv pool_inv_step schedule
             (boot (Parsed cfg) rounds)); [apply pool_inv_boot | exact Hrun].
Qed.

(** X7.  Throughout every run the configuration is in force: once the
    [DistributeFramesAndInfer] object exists, its pool size and its
    decimation factor are those of the configuration file, whatever the
    workers and the flusher do to the queues; a running flusher has the
    configured threshold; and the pool is either still empty or has exactly
    the configured number of workers (none for a number below 1), never
    more. *)
Theorem configuration_in_force (cfg : Config) (rounds : nat)
  (schedule : list Label) (w : World) :
  run schedule (boot (Parsed cfg) rounds) = Next w →
  (pool_proc w ≠ PAbsent →
   pool_size w = cfg_workers cfg ∧
   pick_every_nth_frame (output w) = cfg_pick_every_nth_frame cfg) ∧
  (∀ threshold, flusher w = SRunning threshold →
                threshold = cfg_frame_count_threshold cfg) ∧
  (pool w = [] ∨ length (pool w) = Z.to_nat (cfg_workers cfg)).
Proof.
  intros Hrun.
  destruct (reachable_invariants _ _ _ _ Hrun) as ((_ & Hcfg & _ & Hfl) & Hshape & _).
  split; [exact Hcfg |]. split; [exact Hfl |].
  unfold pool_shape in Hshape.
  destruct (pool_proc w) eqn:Epc; auto; right;
    destruct (Hcfg ltac:(discriminate)) as [<- _]; apply Hshape.
Qed.

(** X8.  The pool process leaves its waiting loop only for a set stop
    event: in every run, if it is joining workers or has returned from
    [run], or if [pool.join()] has returned in the main thread, then the
    stop event is set; and by the time it waits, joins or has returned it
    has called [start()] on every worker it created. *)
Theorem pool_runs_until_stop (cfg : Config) (rounds : nat)
  (schedule : list Label) (w : World) :
  run schedule (boot (Parsed cfg) rounds) = Next w →
  ((∃ k, pool_proc w = PJoining k) ∨ pool_proc w = PExited ∨ pool_joined w = true →
   event_stopper w = true) ∧
  (pool_proc w = PWait ∨ (∃ k, pool_proc w = PJoining k) ∨ pool_proc w = PExited →
   Forall (λ t, ∀ s, t ≠ Created s) (pool w)).
Proof.
  intros Hrun.
  destruct (reachable_invariants _ _ _ _ Hrun) as (_ & Hshape & Hjoin & _).
  unfold pool_shape in Hshape. split.
  - intros [[k Hk] | [He | Hj]]; [| | specialize (Hjoin Hj)];
      repeat match goal with E : pool_proc w = _ |- _ => rewrite E in Hshape; clear E end;
      apply Hshape.
  - intros Hpc.
    assert (Hall : Forall (λ t, is_created t = false) (pool w)).
    { destruct Hpc as [E | [[k E] | E]]; rewrite E in Hshape; apply Hshape. }
    eapply list.Forall_impl; [exact Hall |]. intros t Ht s ->. discriminate.
Qed.

Lemma write_raise (self : DistributeFramesAndInfer) (buf : bytes) (e : exn) :
  write self buf = Raise e → e = ZeroDivisionError ∧ pick_every_nth_frame self = 0.
Proof.
  unfold write, py_mod. destruct (startswith_soi buf); [| discriminate].
  destruct (Z.eqb_spec (pick_every_nth_frame self) 0) as [E|E]; cbn; [| discriminate].
  intros H. injection H as <-. auto.
Qed.

Lemma step_raise (cfg : Config) (l : Label) (w : World) (e : exn) :
  config_inv cfg w → pool_shape w → step l w = Raised e →
  e = ZeroDivisionError ∧ cfg_pick_every_nth_frame cfg = 0.
Proof.
  intros (Hok & Hcfg & Hrec & _) Hshape Hstep. destruct l; cbn [step] in Hstep.
  - exfalso. unfold main_step in Hstep.
    destruct (main_thread w) as [|a rest] eqn:Em; [discriminate |].
    destruct a; cbn [do_action main_ok] in *; try destruct p;
      destruct (pool_proc w); cbn [status_of] in Hok; discriminate.
  - exfalso. unfold pool_step in Hstep. unfold pool_shape in Hshape.
    destruct (pool_proc w) as [| | |k| |k|]; try discriminate.
    + destruct Hshape as (_ & Hge & _).
      destruct (pool w !! k) as [[s|s|]|] eqn:Ek; try discriminate;
        specialize (Hge k _ (Nat.le_refl k) Ek); discriminate.
    + destruct (event_stopper w); discriminate.
    + destruct (pool w !! k) as [[s|s|]|]; discriminate.
  - exfalso. unfold worker_step in Hstep.
    destruct (pool w !! i) as [[s|s|]|]; try discriminate.
    destruct (worker_run _ _ _ _ _); discriminate.
  - unfold camera_step in Hstep. destruct (recording w) eqn:Hr; [| discriminate].
    destruct (write (output w) buf) as [o|e'] eqn:Hw; [discriminate |].
    injection Hstep as ->. destruct (write_raise _ _ _ Hw) as [-> Hz].
    split; [reflexivity |]. destruct (Hcfg (Hrec eq_refl)) as [_ <-]. exact Hz.
  - exfalso. unfold flusher_step in Hstep. destruct (flusher w); discriminate.
  - exfalso. unfold reassembler_step in Hstep.
    destruct (reassembler w), (get_nowait (out_queue w)); discriminate.
Qed.

Lemma run_raise (P : World → Prop) (Q : exn → Prop) :
  (∀ l w w', P w → step l w = Next w' → P w') →
  (∀ l w e, P w → step l w = Raised e → Q e) →
  ∀ schedule w e, P w → run schedule w = Raised e → Q e.
Proof.
  intros Hnext Hraise. induction schedule as [|l rest IH]; intros w e Hw Hrun.
  - discriminate.
  - cbn [run] in Hrun. destruct (step l w) as [w1| |e1] eqn:E; try discriminate.
    + eapply IH; [eapply Hnext; eassumption | exact Hrun].
    + injection Hrun as <-. eapply Hraise; eassumption.
Qed.

Lemma dormant_no_raise (l : Label) (w : World) (e : exn) :
  dormant w → step l w = Raised e → False.
Proof.
  intros (Hp & Hpool & Hf & Hr & Hrec & _ & _ & Hmain) Hstep.
  destruct l; cbn [step] in Hstep.
  - unfold main_step in Hstep. destruct (main_thread w) as [|a rest]; [discriminate |].
    inversion Hmain as [|? ? Ha _]; subst. destruct a; discriminate.
  - unfold pool_step in Hstep. rewrite Hp in Hstep. discriminate.
  - unfold worker_step in Hstep. rewrite Hpool in Hstep. discriminate.
  - unfold camera_step in Hstep. rewrite Hrec in Hstep. discriminate.
  - unfold flusher_step in Hstep. rewrite Hf in Hstep. discriminate.
  - unfold reassembler_step in Hstep. rewrite Hr in Hstep. discriminate.
Qed.

(** X9.  The only exception a run of the program can end in is the
    [ZeroDivisionError] of [write], and only when the configured decimation
    factor is 0: [main] never starts the pool process twice, never joins it
    unstarted, and the pool process never starts a worker twice. *)
Theorem only_zero_factor_raises (file : ConfigFile) (rounds : nat)
  (schedule : list Label) (e : exn) :
  run schedule (boot file rounds) = Raised e →
  e = ZeroDivisionError ∧
  ∃ cfg, file = Parsed cfg ∧ cfg_pick_every_nth_frame cfg = 0.
Proof.
  intros Hrun. destruct file as [msg|msg|cfg].
  1-2: exfalso;
    refine (run_raise dormant (λ _, False) dormant_step dormant_no_raise
              schedule (boot _ rounds) e _ Hrun);
    unfold dormant, boot; cbn; repeat split; repeat constructor.
  assert (H : e = ZeroDivisionError ∧ cfg_pick_every_nth_frame cfg = 0).
  { apply (run_raise (λ w, config_inv cfg w ∧ pool_shape w)
             (λ e, e = ZeroDivisionError ∧ cfg_pick_every_nth_frame cfg = 0))
      with (schedule := schedule) (w := boot (Parsed cfg) rounds).
    - intros l w w' [H1 H2] Hs. split;
        [eapply config_inv_step | eapply pool_shape_step]; eassumption.
    - intros l w e' [H1 H2] Hs. eapply step_raise; eassumption.
    - split; [apply config_inv_boot | apply pool_shape_boot].
    - exact Hrun. }
  destruct H as [-> Hz]. split; [reflexivity |]. exists cfg. auto.
Qed.


Lemma shed_sublist {A} (threshold : Z) (q : list A) : shed threshold q `sublist_of` q.
Proof.
  induction q as [|x q IH]; [constructor |].
  cbn [shed]. destruct (threshold <? _); [| reflexivity].
  apply sublist_cons. exact IH.
Qed.

Lemma Forall_sublist_of {A} (P : A → Prop) (l1 l2 : list A) :
  l1 `sublist_of` l2 → Forall P l2 → Forall P l1.
Proof.
  intros Hsub. induction Hsub as [|x l1 l2 Hsub IH|x l1 l2 Hsub IH]; intros Hall.
  - constructor.
  - inversion Hall; subst. constructor; auto.
  - inversion Hall; subst. auto.
Qed.

Lemma queue_ordered_sublist (self : DistributeFramesAndInfer) (q : list Task.t) :
  q `sublist_of` in_queue self →
  queue_ordered self →
  queue_ordered {| frame_num := frame_num self;
                   pick_every_nth_frame := pick_every_nth_frame self;
                   in_queue := q |}.
Proof.
  intros Hsub [Hs Hb]. unfold queue_ordered. cbn [in_queue frame_num]. split.
  - clear Hb. induction Hsub as [|x l1 l2 Hsub IH|x l1 l2 Hsub IH].
    + constructor.
    + rewrite !fmap_cons in *. apply StronglySorted_inv in Hs as [Hs Hx].
      constructor; [apply IH, Hs |].
      apply (Forall_sublist_of _ (Task.frame_num <$> l1) (Task.frame_num <$> l2));
        [| exact Hx].
      clear -Hsub. induction Hsub; cbn; constructor; assumption.
    + rewrite fmap_cons in Hs. apply StronglySorted_inv in Hs as [Hs _].
      apply IH, Hs.
  - eapply Forall_sublist_of; eassumption.
Qed.

Lemma queue_ordered_step (l : Label) (w w' : World) :
  consumer_only →
  queue_ordered (output w) → step l w = Next w' → queue_ordered (output w').
Proof.
  intros Hcons Hord Hstep. destruct l; cbn [step] in Hstep.
  - unfold main_step in Hstep.
    destruct (main_thread w) as [|a rest]; [discriminate |].
    destruct a; cbn [do_action] in Hstep; step_inv Hstep; simpl_world;
      try exact Hord. apply queue_ordered_new.
  - unfold pool_step in Hstep. step_inv Hstep; simpl_world; exact Hord.
  - unfold worker_step in Hstep.
    destruct (pool w !! i) as [[s|s|]|]; try discriminate.
    destruct (worker_run _ _ _ _ _) as [s' inq outq|] eqn:Hw;
      injection Hstep as <-; simpl_world; [| exact Hord].
    apply queue_ordered_sublist; [| exact Hord].
    eapply Hcons. exact Hw.
  - unfold camera_step in Hstep. destruct (recording w); [| discriminate].
    destruct (write (output w) buf) as [o|e] eqn:Hw; [| discriminate].
    injection Hstep as <-. simpl_world.
    eapply queue_ordered_write; eassumption.
  - unfold flusher_step in Hstep. destruct (flusher w); try discriminate.
    injection Hstep as <-. simpl_world.
    apply queue_ordered_sublist; [apply shed_sublist | exact Hord].
  - unfold reassembler_step in Hstep. step_inv Hstep. simpl_world. exact Hord.
Qed.

(** X11.  With workers that only take tasks off the work queue, the queue
    is in sequence order in every state of every run: however camera
    writes, worker pulls and sheddings interleave, the sequence numbers
    waiting on the queue are strictly increasing from its head and all below
    the counter, so tasks leave the queue in the order of their frames. *)
Theorem work_queue_stays_ordered (file : ConfigFile) (rounds : nat)
  (schedule : list Label) (w : World) :
  consumer_only →
  run schedule (boot file rounds) = Next w →
  StronglySorted Z.lt (Task.frame_num <$> in_queue (output w)) ∧
  Forall (λ t, Task.frame_num t < frame_num (output w)) (in_queue (output w)).
Proof.
  intros Hcons Hrun.
  apply (run_invariant (λ v, queue_ordered (output v))
           (λ l v v', queue_ordered_step l v v' Hcons) schedule
           (boot file rounds)); [apply queue_ordered_new | exact Hrun].
Qed.

Lemma run_snoc (schedule : list Label) (l : Label) (w0 w' : World) :
  run (schedule ++ [l]) w0 = Next w' →
  ∃ w, run schedule w0 = Next w ∧ step l w = Next w'.
Proof.
  rewrite run_app. destruct (run schedule w0) as [w| |e]; try discriminate.
  cbn [run]. destruct (step l w) as [w1| |e] eqn:E; try discriminate.
  intros H. injection H as <-. exists w. auto.
Qed.

Lemma frame_starts_snoc (schedule : list Label) (l : Label) :
  frame_starts (schedule ++ [l]) = frame_starts schedule ++ frame_starts [l].
Proof. unfold frame_starts. apply omap_app. Qed.

Lemma counter_tracks_camera (cfg : Config) (rounds : nat) (schedule : list Label) :
  cfg_pick_every_nth_frame cfg ≠ 0 →
  ∀ w, run schedule (boot (Parsed cfg) rounds) = Next w →
  frame_num (output w) = Z.of_nat (length (frame_starts schedule)) ∧
  (pool_proc w = PAbsent → frame_starts schedule = []).
Proof.
  intros Hnz. induction schedule as [|l schedule IH] using rev_ind; intros w' Hrun.
  - cbn in Hrun. injection Hrun as <-. split; reflexivity.
  - apply run_snoc in Hrun as (w & Hrun & Hstep).
    destruct (IH w Hrun) as [Hnum Habs].
    destruct (reachable_invariants _ _ _ _ Hrun) as ((Hok & Hcfg & Hrec & _) & _ & _).
    rewrite frame_starts_snoc, length_app, Nat2Z.inj_add.
    destruct l; cbn [step] in Hstep.
    + (* the main thread *)
      change (frame_starts [LMain]) with (@nil bytes). rewrite app_nil_r.
      cbn [length]. rewrite Z.add_0_r.
      unfold main_step in Hstep.
      destruct (main_thread w) as [|a rest]; [discriminate |].
      destruct a; cbn [do_action main_ok] in *; step_inv Hstep; simpl_world;
        try (split; [exact Hnum | first [exact Habs | discriminate]]).
      * destruct (pool_proc w); cbn [status_of] in Hok; try discriminate.
        rewrite (Habs eq_refl). split; [reflexivity | discriminate].
      * split; [exact Hnum |]. intros E. rewrite E in *. discriminate.
    + change (frame_starts [LPool]) with (@nil bytes). rewrite app_nil_r.
      cbn [length]. rewrite Z.add_0_r.
      unfold pool_step in Hstep.
      destruct (pool_proc w) eqn:Epc; step_inv Hstep; simpl_world; rewrite ?Epc;
        (split; [exact Hnum | discriminate]).
    + change (frame_starts [LWorker i c]) with (@nil bytes). rewrite app_nil_r.
      cbn [length]. rewrite Z.add_0_r.
      unfold worker_step in Hstep. step_inv Hstep; simpl_world; auto.
    + unfold camera_step in Hstep. destruct (recording w) eqn:Hr; [| discriminate].
      destruct (write (output w) buf) as [o|e] eqn:Hw; [| discriminate].
      injection Hstep as <-. simpl_world.
      specialize (Hrec eq_refl). destruct (Hcfg Hrec) as [_ Hfac].
      split; [| intros E; contradiction].
      replace (frame_starts [LCamera buf])
        with (if startswith_soi buf then [buf] else @nil bytes)
        by (unfold frame_starts; cbn; destruct (startswith_soi buf); reflexivity).
      destruct (startswith_soi buf) eqn:Hsoi.
      * rewrite write_soi in Hw by (assumption || congruence).
        injection Hw as <-. cbn. lia.
      * rewrite (write_other _ _ Hsoi) in Hw. injection Hw as <-. cbn. lia.
    + change (frame_starts [LFlusher]) with (@nil bytes). rewrite app_nil_r.
      cbn [length]. rewrite Z.add_0_r.
      unfold flusher_step in Hstep. step_inv Hstep; simpl_world; auto.
    + change (frame_starts [LReassembler]) with (@nil bytes). rewrite app_nil_r.
      cbn [length]. rewrite Z.add_0_r.
      unfold reassembler_step in Hstep. step_inv Hstep; simpl_world; auto.
Qed.

(** X12.  With a non-zero configured decimation factor, in every state of
    every run the counter equals the number of frame-start chunks the
    camera has handed to [write] so far: no worker, no shedding and no call
    of [main] after the object is built changes it. *)
Theorem counter_counts_camera_frames (cfg : Config) (rounds : nat)
  (schedule : list Label) (w : World) :
  cfg_pick_every_nth_frame cfg ≠ 0 →
  run schedule (boot (Parsed cfg) rounds) = Next w →
  frame_num (output w) = Z.of_nat (length (frame_starts schedule)).
Proof.
  intros Hnz Hrun. apply (counter_tracks_camera cfg rounds schedule Hnz w Hrun).
Qed.

Lemma main_step_view (w w' : World) :
  main_step w = Next w' →
  ∃ a rest, main_thread w = a :: rest ∧ main_thread w' = rest ∧
            view_of w' = apply_action a (view_of w).
Proof.
  intros Hstep. unfold main_step in Hstep.
  destruct (main_thread w) as [|a rest] eqn:Em; [discriminate |].
  exists a, rest. split; [reflexivity |].
  destruct a; try destruct q; cbn [do_action] in Hstep; step_inv Hstep;
    unfold view_of; simpl_world;
    repeat match goal with E : pool_proc _ = _ |- _ => rewrite E end;
    split; reflexivity.
Qed.

Lemma others_view (l : Label) (w w' : World) :
  step l w = Next w' → l ≠ LMain →
  main_thread w' = main_thread w ∧ view_of w' = view_of w.
Proof.
  intros Hstep Hl.
  destruct (others_frame _ _ _ Hstep Hl)
    as (Hmain & Hev & Hj & Hin & Hout & Hflu & Hre & Hrec & _).
  split; [exact Hmain |]. unfold view_of.
  rewrite Hev, Hj, Hin, Hout, Hflu, Hre, Hrec. f_equal.
  destruct l; [congruence | | | | |]; cbn [step] in Hstep;
    unfold pool_step, worker_step, camera_step, flusher_step, reassembler_step in Hstep.
  2-5: step_inv Hstep; simpl_world; reflexivity.
  destruct (pool_proc w) eqn:Epc; step_inv Hstep; simpl_world; rewrite ?Epc;
    reflexivity.
Qed.

Lemma main_safe_step (l : Label) (w w' : World) :
  main_safe (view_of w) (main_thread w) = true → step l w = Next w' →
  main_safe (view_of w') (main_thread w') = true.
Proof.
  intros Hsafe Hstep. destruct l.
  2-6: destruct (others_view _ _ _ Hstep ltac:(discriminate)) as [-> ->];
       exact Hsafe.
  cbn [step] in Hstep.
  destruct (main_step_view _ _ Hstep) as (a & rest & Em & -> & ->).
  rewrite Em in Hsafe. cbn [main_safe] in Hsafe.
  apply andb_prop in Hsafe as [_ H]. exact H.
Qed.

Lemma main_safe_wait_loop (v : main_view) (rounds : nat) (a : Action)
  (rest : list Action) :
  main_safe v (wait_loop rounds ++ a :: rest) = main_safe v (a :: rest).
Proof.
  induction rounds as [|k IH]; [reflexivity |].
  cbn [wait_loop wait_round app main_safe apply_action]. rewrite IH.
  cbn [main_safe]. destruct (pipeline_up_if_recording v); reflexivity.
Qed.

Lemma main_safe_boot (cfg : Config) (rounds : nat) :
  main_safe (view_of (boot (Parsed cfg) rounds)) (main (Parsed cfg) rounds) = true.
Proof.
  rewrite main_parsed. unfold teardown.
  cbn -[wait_loop main_safe]. cbn [main_safe apply_action].
  rewrite main_safe_wait_loop. reflexivity.
Qed.

Lemma main_safe_reachable (cfg : Config) (rounds : nat) (schedule : list Label)
  (w : World) :
  run schedule (boot (Parsed cfg) rounds) = Next w →
  main_safe (view_of w) (main_thread w) = true.
Proof.
  intros Hrun.
  apply (run_invariant (λ v, main_safe (view_of v) (main_thread v) = true)
           main_safe_step schedule (boot (Parsed cfg) rounds));
    [apply main_safe_boot | exact Hrun].
Qed.

(** X13.  The camera only ever writes into a pipeline that is up: in every
    state of every run in which the camera is recording into the object, the
    pool process has been started, is still spawning, starting or waiting
    (it has not begun to join its workers), the stop event is not set,
    [pool.join()] has not returned, the flusher is running with the
    configured threshold and the reassembler is active. *)
Theorem camera_writes_into_live_pipeline (cfg : Config) (rounds : nat)
  (schedule : list Label) (w : World) :
  run schedule (boot (Parsed cfg) rounds) = Next w →
  recording w = true →
  (pool_proc w = PSpawn ∨ (∃ k, pool_proc w = PStarting k) ∨ pool_proc w = PWait) ∧
  event_stopper w = false ∧
  pool_joined w = false ∧
  flusher w = SRunning (cfg_frame_count_threshold cfg) ∧
  reassembler w = Active.
Proof.
  intros Hrun Hrec.
  pose proof (main_safe_reachable _ _ _ _ Hrun) as Hsafe.
  destruct (reachable_invariants _ _ _ _ Hrun) as ((_ & _ & _ & Hfl) & Hshape & _).
  assert (Hup : pipeline_up_if_recording (view_of w) = true).
  { destruct (main_thread w); cbn [main_safe] in Hsafe.
    - unfold is_shutdown in Hsafe. cbn [view_of v_recording v_pool v_flusher
        v_reassembler v_event v_joined v_in_cancelled v_out_cancelled] in Hsafe.
      rewrite Hrec in Hsafe.
      destruct (status_of (pool_proc w)), (flusher w), (reassembler w);
        try discriminate; rewrite !andb_false_r in Hsafe; discriminate.
    - apply andb_prop in Hsafe as [H _]. exact H. }
  unfold pipeline_up_if_recording, view_of in Hup.
  cbn [v_recording v_pool v_flusher v_reassembler v_event v_joined] in Hup.
  rewrite Hrec in Hup.
  destruct (status_of (pool_proc w)) eqn:Est; try discriminate.
  destruct (flusher w) as [|threshold|] eqn:Ef; try discriminate.
  destruct (reassembler w); try discriminate.
  apply andb_prop in Hup as [Hev Hj].
  apply negb_true_iff in Hev, Hj.
  rewrite (Hfl threshold eq_refl).
  split; [| auto].
  unfold pool_shape in Hshape.
  destruct (pool_proc w) as [| | |k| |k|]; try discriminate; eauto;
    destruct Hshape as (_ & _ & Hset); congruence.
Qed.

(** X14.  When [main] has returned after a configuration that loaded,
    everything is shut down: the camera no longer records, the stop event is
    set, the pool process has returned from [run] and has been joined, every
    worker has exited, the join threads of both queues are cancelled, the
    reassembler and the flusher are stopped; and no actor of the model can
    take a step any more. *)
Theorem main_returns_after_full_shutdown (cfg : Config) (rounds : nat)
  (schedule : list Label) (w : World) :
  run schedule (boot (Parsed cfg) rounds) = Next w →
  main_thread w = [] →
  recording w = false ∧
  event_stopper w = true ∧
  pool_proc w = PExited ∧
  pool_joined w = true ∧
  Forall (λ t, t = Exited) (pool w) ∧
  in_cancelled w = true ∧ out_cancelled w = true ∧
  reassembler w = Stopped ∧
  flusher w = SStopped ∧
  ∀ l, step l w = Blocked.
Proof.
  intros Hrun Hdone.
  pose proof (main_safe_reachable _ _ _ _ Hrun) as Hsafe.
  destruct (reachable_invariants _ _ _ _ Hrun) as (_ & _ & Hjoin & Hexit & _).
  rewrite Hdone in Hsafe. cbn [main_safe] in Hsafe.
  unfold is_shutdown, view_of in Hsafe.
  cbn [v_recording v_pool v_flusher v_reassembler v_event v_joined v_in_cancelled
       v_out_cancelled] in Hsafe.
  destruct (status_of (pool_proc w)); try discriminate.
  destruct (flusher w) eqn:Ef; try discriminate.
  destruct (reassembler w) eqn:Er; try discriminate.
  repeat match type of Hsafe with
         | _ && _ = true => apply andb_prop in Hsafe as [Hsafe ?]
         end.
  match goal with H : negb _ = true |- _ => apply negb_true_iff in H end.
  specialize (Hjoin ltac:(assumption)). rewrite Hjoin in Hexit.
  repeat split; auto.
  intros l. destruct l; cbn [step].
  - unfold main_step. rewrite Hdone. reflexivity.
  - unfold pool_step. rewrite Hjoin. reflexivity.
  - unfold worker_step. destruct (pool w !! i) as [t|] eqn:Ei; [| reflexivity].
    rewrite (Forall_lookup_1 _ _ _ _ Hexit Ei). reflexivity.
  - unfold camera_step. match goal with H : recording w = false |- _ => rewrite H end.
    reflexivity.
  - unfold flusher_step. rewrite Ef. reflexivity.
  - unfold reassembler_step. rewrite Er. reflexivity.
Qed.

End SystemProperties.

Lemma run_until_pool_stop_ends :
  run run_until_pool_stop (boot (Parsed sample_config) 0) = Next at_pool_stop.
Proof. vm_compute. reflexivity. Qed.

Lemma run_until_pool_joined_ends :
  run run_until_pool_joined (boot (Parsed sample_config) 0) = Next at_pool_joined.
Proof. vm_compute. reflexivity. Qed.

Lemma configuration_in_force_witness :
  pool_size at_pool_joined = 2 ∧
  pick_every_nth_frame (output at_pool_joined) = 1 ∧
  length (pool at_pool_joined) = 2%nat.
Proof.
  destruct (configuration_in_force (M := spec_worker) sample_config 0
              run_until_pool_joined at_pool_joined run_until_pool_joined_ends)
    as (Hcfg & _ & Hpool).
  destruct Hcfg as [Hsize Hnth]; [discriminate |].
  destruct Hpool as [Hnil | Hlen]; [discriminate Hnil |]. auto.
Defined.

Lemma pool_runs_until_stop_witness :
  pool_joined at_pool_joined = true ∧ event_stopper at_pool_joined = true.
Proof.
  split; [reflexivity |].
  apply (pool_runs_until_stop (M := spec_worker) sample_config 0
           run_until_pool_joined at_pool_joined run_until_pool_joined_ends).
  right. right. reflexivity.
Defined.

Lemma only_zero_factor_raises_witness :
  run run_until_first_frame (boot (Parsed zero_factor_config) 0)
    = Raised ZeroDivisionError ∧
  ∃ cfg, Parsed zero_factor_config = Parsed cfg ∧ cfg_pick_every_nth_frame cfg = 0.
Proof.
  assert (Hrun : run run_until_first_frame (boot (Parsed zero_factor_config) 0)
                 = Raised ZeroDivisionError) by (vm_compute; reflexivity).
  split; [exact Hrun |].
  apply (only_zero_factor_raises (M := spec_worker) (Parsed zero_factor_config) 0
           run_until_first_frame ZeroDivisionError Hrun).
Defined.


Lemma spec_worker_consumer_only : consumer_only (M := spec_worker).
Proof.
  intros c s stop inq outq s' inq' outq' H. cbn in H.
  destruct s as [task|].
  - destruct stop; [discriminate |]. injection H as _ <- _. reflexivity.
  - destruct inq as [|task rest].
    + destruct stop; [discriminate |]. injection H as _ <- _. reflexivity.
    + injection H as _ <- _. apply sublist_cons. reflexivity.
Qed.

Lemma work_queue_stays_ordered_witness :
  StronglySorted Z.lt (Task.frame_num <$> in_queue (output at_pool_stop)) ∧
  Task.frame_num <$> in_queue (output at_pool_stop) = [1; 2].
Proof.
  split; [| reflexivity].
  apply (work_queue_stays_ordered (M := spec_worker) (Parsed sample_config) 0
           run_until_pool_stop at_pool_stop spec_worker_consumer_only
           run_until_pool_stop_ends).
Defined.

Lemma counter_counts_camera_frames_witness :
  frame_num (output at_pool_stop) = 3.
Proof.
  rewrite (counter_counts_camera_frames (M := spec_worker) sample_config 0
             run_until_pool_stop at_pool_stop);
    [reflexivity | discriminate | exact run_until_pool_stop_ends].
Defined.

Lemma run_until_exit_ends :
  run run_until_exit (boot (Parsed sample_config) 0) = Next at_exit.
Proof. vm_compute. reflexivity. Qed.

Lemma run_while_recording_ends :
  run run_while_recording (boot (Parsed sample_config) 0) = Next while_recording.
Proof. vm_compute. reflexivity. Qed.

Lemma camera_writes_into_live_pipeline_witness :
  recording while_recording = true ∧
  event_stopper while_recording = false ∧
  flusher while_recording = SRunning 1.
Proof.
  destruct (camera_writes_into_live_pipeline (M := spec_worker) sample_config 0
              run_while_recording while_recording run_while_recording_ends eq_refl)
    as (_ & Hev & _ & Hfl & _).
  split; [reflexivity |]. split; [exact Hev | exact Hfl].
Defined.

Lemma main_returns_after_full_shutdown_witness :
  main_thread at_exit = [] ∧
  pool_proc at_exit = PExited ∧
  flusher at_exit = SStopped ∧
  step LReassembler at_exit = Blocked.
Proof.
  destruct (main_returns_after_full_shutdown (M := spec_worker) sample_config 0
              run_until_exit at_exit run_until_exit_ends eq_refl)
    as (_ & _ & Hpc & _ & _ & _ & _ & _ & Hfl & Hstuck).
  split; [reflexivity |]. split; [exact Hpc |]. split; [exact Hfl | apply Hstuck].
Defined.
